(** * structured-merge-diff: value model, path elements, validation, removal

    A shallow embedding of the Go sources

      - value/value.go              (Module [value])
      - typed/validate.go           (Module [typed], the validating walker)
      - the removing walker         (Module [typed_remove])
      - GuessBestListPathElement    (Module [schema])
      - fieldpath/strings/table.go  (Module [fieldpath_strings])

    together with the properties of these functions that the specification
    states.  The sources import the packages [schema] and [fieldpath], whose
    files are not in the tree; their types and the functions that the sources
    call are modelled from the specification and from the way the sources use
    them, each under a comment that says so. *)

From stdpp Require Import gmap strings list fin_maps pretty.

#[local] Set Warnings "-register-all,-clear-no-such-hyp".

Local Open Scope string_scope.
Local Open Scope Z_scope.

(** ** Go library functions *)

(** The verbs of Go's [fmt] package that the sources use on values whose
    rendering is fixed by the Go library and not by this repository: [%v] on
    a [float64] and [%q] on a string.  They are taken as an interface. *)
Class GoFmt := {
  fmt_float : Z -> string;
  fmt_quote : string -> string
}.

(** [strings.Join]. *)
Fixpoint Join (elems : list string) (sep : string) : string :=
  match elems with
  | [] => ""
  | [s] => s
  | s :: rest => s ++ sep ++ Join rest sep
  end.

(** [%v] on an integer: its decimal form. *)
Definition fmt_int (i : Z) : string := pretty i.

(** The outcome of a Go function that returns [(T, error)] and may index a
    slice out of range. *)
Inductive Outcome (T : Type) :=
| Returns (t : T)
| Fails (err : string)
| Panics.
Arguments Returns {T} t.
Arguments Fails {T} err.
Arguments Panics {T}.

(** ** Package [value] (value/value.go) *)

Module value.

(** [type Field struct { Name string; Value Value }]. *)
Record FieldOf (V : Type) := mkField { Name : string; Val : V }.
Arguments mkField {V} Name Val.
Arguments Name {V} f.
Arguments Val {V} f.

(** [type Value struct]: exactly one of the members is set.  A [Float] is
    kept as the bit pattern of its [float64], an [Int] as the integer of
    its [int64]; a [Map] as its [Items] (the [index] member is a cache that
    [Get] rebuilds from [Items]). *)
Inductive Value :=
| VFloat (bits : Z)
| VInt (i : Z)
| VString (s : string)
| VBoolean (b : bool)
| VList (Items : list Value)
| VMap (Items : list (FieldOf Value))
| VNull.

Definition Field := FieldOf Value.
Definition Map := list Field.

(** The [index] that [Get] builds: [m.index[f.Name] = f] for every item in
    turn, so a later item with the same name replaces an earlier one. *)
Definition buildIndex (Items : Map) : gmap string Field :=
  fold_left (fun index f => <[Name f := f]> index) Items ∅.

(** [func (m *Map) Get(key string)], returning the field and whether it is
  present. *)
Definition Get (m : Map) (key : string) : option Field :=
  buildIndex m !! key.

(** [func (v Value) HumanReadable() string]. *)
Fixpoint HumanReadable `{GoFmt} (v : Value) : string :=
  match v with
  | VFloat f => fmt_float f
  | VInt i => fmt_int i
  | VString s => fmt_quote s
  | VBoolean b => if b then "true" else "false"
  | VList Items => "[" ++ Join (map HumanReadable Items) "," ++ "]"
  | VMap Items =>
      "{" ++ Join (map (fun i => Name i ++ "=" ++ HumanReadable (Val i)) Items) ";" ++ "}"
  | VNull => "null"
  end.

(** Nesting depth of a value, the measure of both walkers. *)
Fixpoint depth (v : Value) : nat :=
  match v with
  | VList Items => S (foldr (fun x acc => Nat.max (depth x) acc) 0%nat Items)
  | VMap Items => S (foldr (fun f acc => Nat.max (depth (Val f)) acc) 0%nat Items)
  | _ => 0%nat
  end.

(** [type Map struct { Items []Field; index map[string]*Field }] with its
    cache: [index] is absent ([nil]) or maps a name to a pointer into
    [Items], kept here as the position of the item. *)
Record IndexedMap := mkIndexedMap {
  Items : list (FieldOf Value);
  index : option (gmap string nat)
}.

(** One iteration of the loop of [Get] that fills a fresh [index]:
    [m.index[f.Name] = &m.Items[i]]. *)
Definition positionsStep (st : nat * gmap string nat) (f : FieldOf Value)
  : nat * gmap string nat :=
  (S (fst st), <[Name f := fst st]> (snd st)).

(** The [index] after the loop over every position in turn. *)
Definition buildPositions (Items : list (FieldOf Value)) : gmap string nat :=
  snd (fold_left positionsStep Items (0%nat, ∅)).

(** [func (m *Map) Get(key string)] on the map with its cache: the map after
    the call (its [index] is built if it was [nil]) and the pointer found, if
    any. *)
Definition Map_Get (m : IndexedMap) (key : string) : IndexedMap * option nat :=
  let index :=
    match index m with
    | Some index => index
    | None => buildPositions (Items m)
    end in
  ({| Items := Items m; index := Some index |}, index !! key).

(** [func (m *Map) Set(key string, value Value)]: the value of the field
    that [Get] points at is overwritten in place; when there is none, a field
    is appended and the [index] is dropped. *)
Definition Map_Set (m : IndexedMap) (key : string) (value : Value) : IndexedMap :=
  match Map_Get m key with
  | (m', Some f) =>
      {| Items := alter (fun old => mkField (Name old) value) f (Items m');
         index := index m' |}
  | (m', None) =>
      {| Items := (Items m' ++ [mkField key value])%list; index := None |}
  end.

End value.

(** ** Package [fieldpath] *)

Module fieldpath.

(** Modelled from the spec: the type [fieldpath.PathElement], whose file is
    not in the tree.  One step into a structure: exactly one of a field
    name, a key (field name and value pairs), a whole value, or an index.
    The Go struct is a record of optional members; its zero value
    [PathElement{}], which the derivation functions return next to an error,
    has no member set and a [Key] slice of length zero, and is [Key []] here.
    A [Key] that a failed derivation filled only in part is the [Key] of the
    pairs collected so far. *)
Inductive PathElement :=
| FieldName (name : string)
| Key (fields : list value.Field)
| Value (v : value.Value)
| Index (i : Z).

(** A path: the path elements from the root to a node. *)
Definition Path := list PathElement.

(** Modelled from the spec: the canonical string form [PathElement.String]:
    field names bare, indices as [[n]], keyed elements as [[k1=v1,k2=v2]] in
    the order of the key, value elements as [[value-literal]]. *)
Definition PathElement_String `{GoFmt} (e : PathElement) : string :=
  match e with
  | FieldName name => name
  | Key fields =>
      "[" ++ Join (map (fun k => value.Name k ++ "=" ++ value.HumanReadable (value.Val k)) fields) "," ++ "]"
  | Value v => "[" ++ value.HumanReadable v ++ "]"
  | Index i => "[" ++ fmt_int i ++ "]"
  end.

(** Modelled from the spec: [fieldpath.MakePath] on one path element, the
    exact path of a child of the container being walked. *)
Definition MakePath (pe : PathElement) : Path := [pe].

(** Modelled from the spec: the type [fieldpath.Set], a set of paths.  A path
    is used as a key through the canonical string form of its elements. *)
Definition PathSet := list Path.

(** Modelled from the spec: the comparison of two paths as keys, element by
    element through the canonical string form. *)
Definition samePath `{GoFmt} (p q : Path) : bool :=
  bool_decide (map PathElement_String p = map PathElement_String q).

(** Modelled from the spec: [Set.Has], whether the exact path is in the set. *)
Definition Has `{GoFmt} (s : PathSet) (p : Path) : bool :=
  existsb (samePath p) s.

(** Modelled from the spec: [Set.WithPrefix], the entries of the set whose
    path is prefixed by [pe] (strict descendants), with that prefix taken
    off. *)
Definition WithPrefix `{GoFmt} (s : PathSet) (pe : PathElement) : PathSet :=
  omap (fun q =>
          match q with
          | pe' :: (_ :: _) as rest =>
              if bool_decide (PathElement_String pe' = PathElement_String pe)
              then Some rest else None
          | _ => None
          end) s.

(** Modelled from the spec: [Set.Empty]. *)
Definition Empty (s : PathSet) : bool :=
  match s with [] => true | _ => false end.

End fieldpath.

(** ** Package [schema] *)

Module schema.

(** Modelled from the spec: the type [schema.Scalar], one of Numeric, String
    and Boolean. *)
Inductive Scalar := Numeric | String | Boolean.

(** Modelled from the spec: the type [schema.ElementRelationship]. *)
Inductive ElementRelationship := Associative | Atomic.

#[global] Instance ElementRelationship_eq_dec : EqDecision ElementRelationship.
Proof. solve_decision. Defined.

(** Modelled from the spec: the type [schema.StructField], a named field with
    its type reference ([T] stands for [TypeRef], declared below). *)
Record StructFieldOf (T : Type) := mkStructField { Name : string; Type_ : T }.
Arguments mkStructField {T} Name Type_.
Arguments Name {T} s.
Arguments Type_ {T} s.

(** Modelled from the spec: the type [schema.Struct], an ordered list of
    named fields. *)
Record StructOf (T : Type) := mkStruct { Fields : list (StructFieldOf T) }.
Arguments mkStruct {T} Fields.
Arguments Fields {T} s.

(** Modelled from the spec: the type [schema.List], with the members
    [ElementType], [ElementRelationship] and [Keys] that the sources read. *)
Record ListOf (T : Type) := mkList {
  ElementType : T;
  ElementRelationship_ : ElementRelationship;
  Keys : list string
}.
Arguments mkList {T} ElementType ElementRelationship_ Keys.
Arguments ElementType {T} l.
Arguments ElementRelationship_ {T} l.
Arguments Keys {T} l.

(** Modelled from the spec: the type [schema.Map], with the members that the
    removing walker reads: [ElementType], the declared [Fields] and
    [ElementRelationship].  The validating walker reads [ElementType] only. *)
Record MapOf (T : Type) := mkMap {
  Map_ElementType : T;
  Map_Fields : list (StructFieldOf T);
  Map_ElementRelationship : ElementRelationship
}.
Arguments mkMap {T} Map_ElementType Map_Fields Map_ElementRelationship.
Arguments Map_ElementType {T} m.
Arguments Map_Fields {T} m.
Arguments Map_ElementRelationship {T} m.

(** Modelled from the spec: the type [schema.Atom], exactly one of Scalar,
    Struct, List, Map and Untyped. *)
Inductive AtomOf (T : Type) :=
| AScalar (t : Scalar)
| AStruct (t : StructOf T)
| AList (t : ListOf T)
| AMap (t : MapOf T)
| AUntyped.
Arguments AScalar {T} t.
Arguments AStruct {T} t.
Arguments AList {T} t.
Arguments AMap {T} t.
Arguments AUntyped {T}.

(** Modelled from the spec: the type [schema.TypeRef], either the name of a
    type of the catalog or an inline atom. *)
Inductive TypeRef :=
| NamedType (name : string)
| Inlined (a : AtomOf TypeRef).

Definition Atom := AtomOf TypeRef.
Definition StructField := StructFieldOf TypeRef.
Definition Struct := StructOf TypeRef.
Definition List := ListOf TypeRef.
Definition Map := MapOf TypeRef.

(** Modelled from the spec: the type [schema.TypeDef], a name and the atom
    it stands for. *)
Record TypeDef := mkTypeDef { TypeDef_Name : string; TypeDef_Atom : Atom }.

(** Modelled from the spec: the type [schema.Schema], the catalog of named
    types. *)
Record Schema := mkSchema { Types : list TypeDef }.

(** Modelled from the spec: [Schema.Resolve]: an inline atom resolves to
    itself, a named type to the atom of the catalog entry with exactly that
    name; resolution fails if the name is absent. *)
Definition Resolve (s : Schema) (tr : TypeRef) : option Atom :=
  match tr with
  | Inlined a => Some a
  | NamedType name =>
      TypeDef_Atom <$> find (fun t => bool_decide (TypeDef_Name t = name)) (Types s)
  end.

(** [AssociativeListCandidateFieldNames]. *)
Definition AssociativeListCandidateFieldNames : list string :=
  ["key"; "id"; "name"].

(** The test [f.Value.Null || f.Value.MapValue != nil || f.Value.ListValue != nil]. *)
Definition notPrimitive (v : value.Value) : bool :=
  match v with
  | value.VNull | value.VMap _ | value.VList _ => true
  | _ => false
  end.

(** [func GuessBestListPathElement(index int, item value.Value) PathElement].
    The loop appends to [keys] the field of every candidate name that is
    present with a primitive value. *)
Definition GuessBestListPathElement (index : Z) (item : value.Value)
  : fieldpath.PathElement :=
  match item with
  | value.VMap m =>
      let keys :=
        fold_left
          (fun (keys : list value.Field) name =>
             match value.Get m name with
             | None => keys
             | Some f => if notPrimitive (value.Val f) then keys else (keys ++ [f])%list
             end)
          AssociativeListCandidateFieldNames [] in
      if (0 <? length keys)%nat then fieldpath.Key keys else fieldpath.Index index
  | _ => fieldpath.Index index
  end.

End schema.

(** ** Package [typed] *)

Module typed.

(** *** The validating walker (typed/validate.go) *)

(** [type ValidationError struct]. *)
Record ValidationError := mkValidationError {
  Path : fieldpath.Path;
  ErrorMessage : string
}.

Definition ValidationErrors := list ValidationError.

(** [type validation struct], the receiver of the walker's methods. *)
Record validation := mkValidation {
  path : fieldpath.Path;
  value : value.Value;
  schema : schema.Schema;
  typeRef : schema.TypeRef
}.

(** [func (v validation) error(format string, args ...interface{})]: the
    caller has formatted the message; the path is copied. *)
Definition error (v : validation) (message : string) : ValidationError :=
  {| Path := path v; ErrorMessage := message |}.

(** [func (v validation) doScalar]. *)
Definition doScalar `{GoFmt} (v : validation) (t : schema.Scalar)
    (value : value.Value) : ValidationErrors :=
  match t with
  | schema.Numeric =>
      match value with
      | value.VFloat _ | value.VInt _ => []
      | _ => [error v ("expected numeric (int or float), got " ++ value.HumanReadable value)]
      end
  | schema.String =>
      match value with
      | value.VString _ => []
      | _ => [error v ("expected string, got " ++ value.HumanReadable value)]
      end
  | schema.Boolean =>
      match value with
      | value.VBoolean _ => []
      | _ => [error v ("expected boolean, got " ++ value.HumanReadable value)]
      end
  end.

(** [func (v validation) doStruct].  [validate] stands for the method
    [validate] that the loop calls on the child walker [v2]. *)
Definition doStruct `{GoFmt} (validate : validation -> ValidationErrors)
    (v : validation) (t : schema.Struct) (value : value.Value) : ValidationErrors :=
  match value with
  | value.VNull => []
  | value.VMap m =>
      let '(allowedNames, errs) :=
        fold_left
          (fun '(allowedNames, errs) (f : schema.StructField) =>
             let allowedNames : gset string := {[schema.Name f]} ∪ allowedNames in
             match value.Get m (schema.Name f) with
             | None => (allowedNames, errs)
             | Some child =>
                 let v2 := {| path := (path v ++ [fieldpath.FieldName (schema.Name f)])%list;
                              value := value.Val child;
                              schema := schema v;
                              typeRef := schema.Type_ f |} in
                 (allowedNames, (errs ++ validate v2)%list)
             end)
          (schema.Fields t) (∅, []) in
      fold_left
        (fun errs (f : value.Field) =>
           if bool_decide (value.Name f ∈ allowedNames) then errs
           else (errs ++ [error v ("field " ++ value.Name f ++ " is not mentioned in the schema")])%list)
        m errs
  | _ => [error v ("expected struct, got " ++ value.HumanReadable value)]
  end.

(** [func keyedAssociativeListItemToPathElement]: the loop over [list.Keys],
    with [pe.Key] as built so far. *)
Fixpoint keyedLoop (m : value.Map) (Keys : list string) (peKey : list value.Field)
  : fieldpath.PathElement * option string :=
  match Keys with
  | [] => (fieldpath.Key peKey, None)
  | fieldName :: rest =>
      match value.Get m fieldName with
      | Some field =>
          keyedLoop m rest (peKey ++ [value.mkField fieldName (value.Val field)])%list
      | None =>
          (fieldpath.Key peKey,
           Some ("associative list with keys has an element that omits key field " ++ fieldName))
      end
  end.

Definition keyedAssociativeListItemToPathElement (list : schema.List) (index : Z)
    (child : value.Value) : fieldpath.PathElement * option string :=
  match child with
  | value.VNull =>
      (fieldpath.Key [], Some "associative list with keys may not have a null element")
  | value.VMap m => keyedLoop m (schema.Keys list) []
  | _ =>
      (fieldpath.Key [], Some "associative list with keys may not have non-map elements")
  end.

(** [func setItemToPathElement]. *)
Definition setItemToPathElement (list : schema.List) (index : Z)
    (child : value.Value) : fieldpath.PathElement * option string :=
  match child with
  | value.VMap _ =>
      (fieldpath.Key [], Some "associative list without keys has an element that's a map type")
  | value.VList _ =>
      (fieldpath.Key [], Some "not supported: associative list with lists as elements")
  | value.VNull =>
      (fieldpath.Key [], Some "associative list without keys has an element that's an explicit null")
  | _ => (fieldpath.Value child, None)
  end.

(** [func listItemToPathElement]. *)
Definition listItemToPathElement (list : schema.List) (index : Z)
    (child : value.Value) : fieldpath.PathElement * option string :=
  if decide (schema.ElementRelationship_ list = schema.Associative) then
    if (0 <? length (schema.Keys list))%nat
    then keyedAssociativeListItemToPathElement list index child
    else setItemToPathElement list index child
  else (fieldpath.Index index, None).

(** The state of the loop of [doList]: the index of the next element, the
    keys observed so far and the errors so far. *)
Record doListState := mkDoListState {
  next : Z;
  observedKeys : gset string;
  errs : ValidationErrors
}.

(** One iteration of the loop of [doList]. *)
Definition doListIter `{GoFmt} (validate : validation -> ValidationErrors)
    (v : validation) (t : schema.List) (st : doListState) (child : value.Value)
  : doListState :=
  let i := next st in
  match listItemToPathElement t i child with
  | (pe, Some err) =>
      {| next := i + 1;
         observedKeys := observedKeys st;
         errs := (errs st ++ [error v ("element " ++ fmt_int i ++ ": " ++ err)])%list |}
  | (pe, None) =>
      let keyStr := fieldpath.PathElement_String pe in
      let errs1 :=
        if bool_decide (keyStr ∈ observedKeys st)
        then (errs st ++ [error v ("duplicate entries for key " ++ keyStr)])%list
        else errs st in
      let v2 := {| path := (path v ++ [pe])%list;
                   value := child;
                   schema := schema v;
                   typeRef := schema.ElementType t |} in
      {| next := i + 1;
         observedKeys := {[keyStr]} ∪ observedKeys st;
         errs := (errs1 ++ validate v2)%list |}
  end.

(** [func (v validation) doList]. *)
Definition doList `{GoFmt} (validate : validation -> ValidationErrors)
    (v : validation) (t : schema.List) (value : value.Value) : ValidationErrors :=
  match value with
  | value.VNull => []
  | value.VList Items =>
      errs (fold_left (doListIter validate v t) Items
              {| next := 0; observedKeys := ∅; errs := [] |})
  | _ => [error v "expected list"]
  end.

(** [func (v validation) doMap]. *)
Definition doMap `{GoFmt} (validate : validation -> ValidationErrors)
    (v : validation) (t : schema.Map) (value : value.Value) : ValidationErrors :=
  match value with
  | value.VNull => []
  | value.VMap Items =>
      fold_left
        (fun errs (item : value.Field) =>
           let v2 := {| path := (path v ++ [fieldpath.FieldName (value.Name item)])%list;
                        value := value.Val item;
                        schema := schema v;
                        typeRef := schema.Map_ElementType t |} in
           (errs ++ validate v2)%list)
        Items []
  | _ => [error v ("expected list, found " ++ value.HumanReadable value)]
  end.

(** The body of [func (v validation) validate], with [validate] for the
    calls it makes on child walkers.  With atoms as a sum the final
    [invalid atom] error of the source has no case. *)
Definition validateBody `{GoFmt} (validate : validation -> ValidationErrors)
    (v : validation) : ValidationErrors :=
  match schema.Resolve (schema v) (typeRef v) with
  | None =>
      [error v ("no type found matching: " ++
                match typeRef v with schema.NamedType name => name | _ => "" end)]
  | Some a =>
      match a with
      | schema.AScalar t => doScalar v t (value v)
      | schema.AStruct t => doStruct validate v t (value v)
      | schema.AList t => doList validate v t (value v)
      | schema.AMap t => doMap validate v t (value v)
      | schema.AUntyped => []
      end
  end.

(** The recursion of [validate] descends one level of the value at each
    call, so [n] unfoldings of the body serve every value of depth below
    [n]. *)
Fixpoint validateUpTo `{GoFmt} (n : nat) (v : validation) : ValidationErrors :=
  match n with
  | O => []
  | S n' => validateBody (validateUpTo n') v
  end.

(** [func (v validation) validate() ValidationErrors]. *)
Definition validate `{GoFmt} (v : validation) : ValidationErrors :=
  validateUpTo (S (value.depth (value v))) v.

End typed.

(** ** Package [typed]: the removing walker *)

Module typed_remove.

(** [type removingWalker struct].  The walker holds a pointer to the value
    and stores the result through it; here each method returns the value
    that it leaves behind that pointer. *)
Record removingWalker := mkRemovingWalker {
  value : value.Value;
  schema : schema.Schema;
  toRemove : fieldpath.PathSet
}.

(** Modelled from the spec: [resolveSchema], the dispatch of the removing
    walker: it resolves the type reference and calls the handler of a List
    or of a Map atom; a reference that does not resolve, and every other
    atom, leave the value as it is. *)
Definition resolveSchema (s : schema.Schema) (typeRef : schema.TypeRef)
    (value : value.Value)
    (doList : schema.List -> value.Value) (doMap : schema.Map -> value.Value)
  : value.Value :=
  match schema.Resolve s typeRef with
  | Some (schema.AList t) => doList t
  | Some (schema.AMap t) => doMap t
  | _ => value
  end.

(** The recursive call [removeItemsWithSchema(&val, subset, w.schema, typeRef)]
    as the methods see it: it returns the value left in [val]. *)
Definition removal :=
  value.Value -> fieldpath.PathSet -> schema.Schema -> schema.TypeRef -> value.Value.

(** One iteration of the loop of [doList]: the index of the next element and
    [newItems] so far. *)
Definition doListIter `{GoFmt} (removeItemsWithSchema : removal)
    (w : removingWalker) (t : schema.List) (st : Z * list value.Value)
    (item : value.Value) : Z * list value.Value :=
  let '(i, newItems) := st in
  let '(pe, _) := typed.listItemToPathElement t i item in
  let path := fieldpath.MakePath pe in
  if fieldpath.Has (toRemove w) path then (i + 1, newItems)
  else
    let subset := fieldpath.WithPrefix (toRemove w) pe in
    let item :=
      if negb (fieldpath.Empty subset)
      then removeItemsWithSchema item subset (schema w) (schema.ElementType t)
      else item in
    (i + 1, (newItems ++ [item])%list).

(** [func (w *removingWalker) doList(t *schema.List)].  The match on the
    value is [value.ValueList], which is not in the tree: the items of a list
    value, and [nil] for any other value. *)
Definition doList `{GoFmt} (removeItemsWithSchema : removal)
    (w : removingWalker) (t : schema.List) : value.Value :=
  match value w with
  | value.VList l =>
      if bool_decide (length l = 0%nat)
         || bool_decide (schema.ElementRelationship_ t = schema.Atomic)
      then value w
      else
        let newItems := snd (fold_left (doListIter removeItemsWithSchema w t) l (0, [])) in
        if (0 <? length newItems)%nat then value.VList newItems else value.VNull
  | _ => value w
  end.

(** The table [fieldTypes] of [doMap]. *)
Definition fieldTypes (t : schema.Map) : gmap string schema.TypeRef :=
  fold_left (fun fieldTypes structField =>
               <[schema.Name structField := schema.Type_ structField]> fieldTypes)
            (schema.Map_Fields t) ∅.

(** One iteration of the loop of [doMap], with [newMap] so far. *)
Definition doMapIter `{GoFmt} (removeItemsWithSchema : removal)
    (w : removingWalker) (t : schema.Map) (newMap : list value.Field)
    (entry : value.Field) : list value.Field :=
  let key := value.Name entry in
  let val := value.Val entry in
  let pe := fieldpath.FieldName key in
  let path := fieldpath.MakePath pe in
  let proceed (fieldType : schema.TypeRef) :=
    let subset := fieldpath.WithPrefix (toRemove w) pe in
    let val :=
      if negb (fieldpath.Empty subset)
      then removeItemsWithSchema val subset (schema w) fieldType
      else val in
    (newMap ++ [value.mkField key val])%list in
  match fieldTypes t !! key with
  | Some ft => proceed ft
  | None =>
      if fieldpath.Has (toRemove w) path then newMap
      else proceed (schema.Map_ElementType t)
  end.

(** [func (w *removingWalker) doMap(t *schema.Map)].  The match on the value
    is [value.ValueMap], which is not in the tree: the entries of a map value
    (their names are unique), and [nil] for any other value.  A Go map has no
    order of its own; the entries are visited, and [newMap] is kept, in the
    order of [Items]. *)
Definition doMap `{GoFmt} (removeItemsWithSchema : removal)
    (w : removingWalker) (t : schema.Map) : value.Value :=
  match value w with
  | value.VMap m =>
      if bool_decide (length m = 0%nat)
         || bool_decide (schema.Map_ElementRelationship t = schema.Atomic)
      then value w
      else
        let newMap := fold_left (doMapIter removeItemsWithSchema w t) m [] in
        if (0 <? length newMap)%nat then value.VMap newMap else value.VNull
  | _ => value w
  end.

(** [func removeItemsWithSchema(value, toRemove, schema, typeRef)]: the value
    that the call leaves in [*value]. *)
Fixpoint removeItemsWithSchema `{GoFmt} (value : value.Value)
    (toRemove : fieldpath.PathSet) (schema : schema.Schema)
    (typeRef : schema.TypeRef) {struct value} : value.Value :=
  let w := {| value := value; schema := schema; toRemove := toRemove |} in
  resolveSchema schema typeRef value
    (doList removeItemsWithSchema w) (doMap removeItemsWithSchema w).

End typed_remove.

(** ** Package [strings] of [fieldpath] (fieldpath/strings/table.go) *)

Module fieldpath_strings.

Section tables.

(** The constants [v0] and [v1], whose file is not in the tree, and the Go
    library functions [strings.TrimSpace] and [strings.Split]. *)
Variables v0 v1 : string.
Variable TrimSpace : string -> string.
Variable Split : string -> string -> list string.

Definition versions : list string := [v0; v1].

Definition DefaultVersion : Z := 1.

(** The line feed, the separator of [strings.Split] in [init]. *)
Definition newline : string := String (Ascii.ascii_of_nat 10) EmptyString.

(** The map that [init] fills for one table: [m[s[i]] = i] for every index
    of [s] in turn. *)
Definition reverseOf (s : list string) : gmap string Z :=
  snd (fold_left (fun '(i, m) x => (i + 1, <[x := i]> m)) s (0, ∅)).

(** [func init()]: the tables after the loop over [versions]. *)
Definition stringTables : list (list string) :=
  fold_left (fun stringTables v =>
               (stringTables ++ [Split (TrimSpace v) newline])%list)
            versions [].

Definition reverseTables : list (gmap string Z) :=
  fold_left (fun reverseTables v =>
               (reverseTables ++ [reverseOf (Split (TrimSpace v) newline)])%list)
            versions [].

(** [func GetTable(i int) ([]string, error)].  Indexing a slice outside
    its length panics. *)
Definition GetTable (i : Z) : Outcome (list string) :=
  if (i <? 0) || (i >? Z.of_nat (length stringTables))
  then Fails ("unable to lookup string table version " ++ fmt_int i)
  else match stringTables !! Z.to_nat i with
       | Some t => Returns t
       | None => Panics
       end.

(** [func GetReverseTable(i int) (map[string]int, error)]. *)
Definition GetReverseTable (i : Z) : Outcome (gmap string Z) :=
  if (i <? 0) || (i >? Z.of_nat (length reverseTables))
  then Fails ("unable to lookup reverse string table version " ++ fmt_int i)
  else match reverseTables !! Z.to_nat i with
       | Some t => Returns t
       | None => Panics
       end.

End tables.

End fieldpath_strings.

(** ** Definitions that follow the specification, and examples *)

(** A rendering to evaluate examples with: a float by the decimal form of
    its bit pattern, a string between two quote marks. *)
Definition quoteMark : string := String (Ascii.ascii_of_nat 34) EmptyString.

Definition exampleFmt : GoFmt :=
  {| fmt_float := fun bits => pretty bits;
     fmt_quote := fun s => quoteMark ++ s ++ quoteMark |}.

(** The specification's scalar values: neither Null, nor a Map, nor a List. *)
Definition isScalar (v : value.Value) : bool :=
  match v with
  | value.VFloat _ | value.VInt _ | value.VString _ | value.VBoolean _ => true
  | _ => false
  end.

(** The specification's key of the schema-less derivation: every candidate
    field name, in the order [key], [id], [name], that the map holds with a
    scalar value. *)
Definition scalarCandidates (m : value.Map) : list value.Field :=
  omap (fun name =>
          match value.Get m name with
          | Some f => if isScalar (value.Val f) then Some f else None
          | None => None
          end)
       ["key"; "id"; "name"].

(** A keyed associative list of untyped elements with the single key [id]. *)
Definition listById : schema.List :=
  schema.mkList (schema.Inlined schema.AUntyped) schema.Associative ["id"].

(** A set: an associative list without keys. *)
Definition setOfStrings : schema.List :=
  schema.mkList (schema.Inlined (schema.AScalar schema.String)) schema.Associative [].

Definition field (name : string) (v : value.Value) : value.Field :=
  value.mkField name v.

(** The path element that the removing walker derives for an element of an
    associative list: that of [listItemToPathElement], whose error the walker
    ignores (the index plays no part for an associative list). *)
Definition derived (t : schema.List) (item : value.Value) : fieldpath.PathElement :=
  fst (typed.listItemToPathElement t 0 item).

(** The specification's removal on a list, element by element: an element
    survives unless its exact path is in the removal set. *)
Definition keptItem `{GoFmt} (w : typed_remove.removingWalker) (t : schema.List)
    (item : value.Value) : bool :=
  negb (fieldpath.Has (typed_remove.toRemove w) (fieldpath.MakePath (derived t item))).

(** A surviving element is replaced by the result of the removal of the
    strict descendants of its path, if the removal set has any. *)
Definition descendItem `{GoFmt} (rec : typed_remove.removal)
    (w : typed_remove.removingWalker) (t : schema.List) (item : value.Value)
  : value.Value :=
  let subset := fieldpath.WithPrefix (typed_remove.toRemove w) (derived t item) in
  if fieldpath.Empty subset then item
  else rec item subset (typed_remove.schema w) (schema.ElementType t).

(** What [doMap] does entry by entry: an entry whose name is declared in
    [Fields] always survives, any other survives unless its exact path is in
    the removal set. *)
Definition keptEntry `{GoFmt} (w : typed_remove.removingWalker) (t : schema.Map)
    (entry : value.Field) : bool :=
  match typed_remove.fieldTypes t !! value.Name entry with
  | Some _ => true
  | None =>
      negb (fieldpath.Has (typed_remove.toRemove w)
              (fieldpath.MakePath (fieldpath.FieldName (value.Name entry))))
  end.

Definition descendEntry `{GoFmt} (rec : typed_remove.removal)
    (w : typed_remove.removingWalker) (t : schema.Map) (entry : value.Field)
  : value.Field :=
  let fieldType := default (schema.Map_ElementType t)
                           (typed_remove.fieldTypes t !! value.Name entry) in
  let subset := fieldpath.WithPrefix (typed_remove.toRemove w)
                                     (fieldpath.FieldName (value.Name entry)) in
  value.mkField (value.Name entry)
    (if fieldpath.Empty subset then value.Val entry
     else rec (value.Val entry) subset (typed_remove.schema w) fieldType).

(** A container after removal: Null when nothing is left. *)
Definition listOrNull (newItems : list value.Value) : value.Value :=
  match newItems with [] => value.VNull | _ => value.VList newItems end.

Definition mapOrNull (newMap : list value.Field) : value.Value :=
  match newMap with [] => value.VNull | _ => value.VMap newMap end.


(** *** Example inputs *)

Definition emptySchema : schema.Schema := schema.mkSchema [].

Definition numeric : schema.TypeRef := schema.Inlined (schema.AScalar schema.Numeric).

(** A map type without declared fields. *)
Definition mapOf (elementType : schema.TypeRef) : schema.Map :=
  schema.mkMap elementType [] schema.Associative.




(** The set [[a, b, a]] and the path set that holds the path of [a]. *)
Definition aba : list value.Value :=
  [value.VString "a"; value.VString "b"; value.VString "a"].

Definition pathOfValueA : fieldpath.PathSet :=
  [[fieldpath.Value (value.VString "a")]].


Definition walkerOn (value : value.Value) (t : schema.List) : typed.validation :=
  typed.mkValidation [] value emptySchema (schema.Inlined (schema.AList t)).










(** A list keyed by [a] and [b] with the element [{a: 1, b: 2}], and the path
    set that holds the path of the field [b] of that element and the path of
    an element with the key [a = 1] alone. *)
Definition byAB : schema.List :=
  schema.mkList (schema.Inlined (schema.AMap (mapOf numeric))) schema.Associative ["a"; "b"].

Definition oneAB : value.Value :=
  value.VList [value.VMap [field "a" (value.VInt 1); field "b" (value.VInt 2)]].

Definition bOfABAndA : fieldpath.PathSet :=
  [[fieldpath.Key [field "a" (value.VInt 1); field "b" (value.VInt 2)]; fieldpath.FieldName "b"];
   [fieldpath.Key [field "a" (value.VInt 1)]]].

(** ** Further definitions for the properties of the code *)

(** The cache of a map is in order: its [index], when there is one, is the
    one that [Get] builds from the current [Items]. *)
Definition indexValid (m : value.IndexedMap) : Prop :=
  forall index, value.index m = Some index -> index = value.buildPositions (value.Items m).

(** The map [{a: 1, b: 2}] without an index. *)
Definition mapAB : value.IndexedMap :=
  value.mkIndexedMap [field "a" (value.VInt 1); field "b" (value.VInt 2)] None.

(** The walker of [validate] on a child: [v2 := v] with the path extended by
    the path element of the child, the value of the child and its type. *)
Definition childWalker (v : typed.validation) (pe : fieldpath.PathElement)
    (child : value.Value) (typeRef : schema.TypeRef) : typed.validation :=
  {| typed.path := (typed.path v ++ [pe])%list;
     typed.value := child;
     typed.schema := typed.schema v;
     typed.typeRef := typeRef |}.

(** The kinds of value that a scalar type takes: an integer or a float for
    Numeric, a string for String, a boolean for Boolean. *)
Definition scalarAccepts (t : schema.Scalar) (v : value.Value) : bool :=
  match t, v with
  | schema.Numeric, (value.VFloat _ | value.VInt _) => true
  | schema.String, value.VString _ => true
  | schema.Boolean, value.VBoolean _ => true
  | _, _ => false
  end.

(** *** Example inputs *)

(** A walker at the root, on a value and a type, with an empty catalog. *)
Definition rootWalker (value : value.Value) (typeRef : schema.TypeRef) : typed.validation :=
  typed.mkValidation [] value emptySchema typeRef.

(** A struct with the single field [name], a string. *)
Definition structOfName : schema.Struct :=
  schema.mkStruct [schema.mkStructField "name" (schema.Inlined (schema.AScalar schema.String))].

(** The map [{name: x, bogus: 1}]. *)
Definition nameAndBogus : list value.Field :=
  [field "name" (value.VString "x"); field "bogus" (value.VInt 1)].

(** An atomic list of numbers. *)
Definition atomicNumbers : schema.List :=
  schema.mkList numeric schema.Atomic [].

(** A list keyed by [name]. *)
Definition byName : schema.List :=
  schema.mkList (schema.Inlined schema.AUntyped) schema.Associative ["name"].

(** Stand-ins for [strings.TrimSpace] and [strings.Split] to evaluate the
    tables with: no trimming, and a split at every occurrence of a separator
    of one character. *)
Fixpoint splitAt (sep : Ascii.ascii) (s : string) (current : string) : list string :=
  match s with
  | EmptyString => [String.rev current]
  | String.String c rest =>
      if Ascii.eqb c sep then String.rev current :: splitAt sep rest EmptyString
      else splitAt sep rest (String.String c current)
  end.

Definition exampleSplit (s sep : string) : list string :=
  match sep with
  | String.String c EmptyString => splitAt c s EmptyString
  | _ => [s]
  end.

Definition exampleTrimSpace (s : string) : string := s.

(** Two versions of a table: [a, b] and [a, b, c], one string a line. *)
Definition exampleV0 : string := "a" ++ fieldpath_strings.newline ++ "b".

Definition exampleV1 : string :=
  "a" ++ fieldpath_strings.newline ++ "b" ++ fieldpath_strings.newline ++ "c".

(** * Properties *)

(** ** Lookup in a map value *)

Section value_facts.

Import value.

Lemma buildIndex_snoc (m : Map) (f : Field) :
  buildIndex (m ++ [f])%list = <[Name f := f]> (buildIndex m).
Proof. unfold buildIndex. by rewrite fold_left_app. Qed.

(** [Get] finds the last item of the name. *)
Lemma Get_snoc (m : Map) (f : Field) (key : string) :
  Get (m ++ [f])%list key = if decide (Name f = key) then Some f else Get m key.
Proof. unfold Get. rewrite buildIndex_snoc. apply lookup_insert. Qed.

Lemma Get_nil (key : string) : Get [] key = None.
Proof. apply lookup_empty. Qed.

Lemma Get_Some_elem (m : Map) (key : string) (f : Field) :
  Get m key = Some f -> f ∈ m /\ Name f = key.
Proof.
  induction m as [|g m IH] using rev_ind.
  - by rewrite Get_nil.
  - rewrite Get_snoc. case_decide as Hn.
    + intros [= ->]. split; [set_solver | done].
    + intros Hg. destruct (IH Hg). split; [set_solver | done].
Qed.

Lemma Get_None_names (m : Map) (key : string) :
  Get m key = None <-> key ∉ (Name <$> m).
Proof.
  induction m as [|g m IH] using rev_ind.
  - rewrite Get_nil. set_solver.
  - rewrite Get_snoc, fmap_app. simpl. case_decide as Hn; set_solver.
Qed.

(** With unique names, [Get] finds the item whatever its position. *)
Lemma Get_NoDup_elem (m : Map) (f : Field) :
  NoDup ((Name <$> m)) -> f ∈ m -> Get m (Name f) = Some f.
Proof.
  induction m as [|g m IH] using rev_ind; [set_solver|].
  rewrite fmap_app, NoDup_app. simpl. intros (Hm & Hdis & _) Hin.
  rewrite Get_snoc. case_decide as Hn.
  - apply elem_of_app in Hin as [Hin | Hin]; [|set_solver].
    exfalso. apply (Hdis (Name f)); [|set_solver].
    apply list_elem_of_fmap. eauto.
  - apply IH; [done|]. set_solver.
Qed.

(** The order of the items of a map with unique names does not matter to
    [Get]. *)
Lemma Get_Permutation (m1 m2 : Map) (key : string) :
  NoDup ((Name <$> m1)) -> m1 ≡ₚ m2 -> Get m1 key = Get m2 key.
Proof.
  intros Hnd Hp.
  assert (Hnd2 : NoDup ((Name <$> m2))).
  { by rewrite <- Hp. }
  destruct (Get m1 key) as [f|] eqn:H1.
  - apply Get_Some_elem in H1 as [Hin <-]. symmetry.
    apply Get_NoDup_elem; [done|]. by rewrite <- Hp.
  - symmetry. apply Get_None_names. apply Get_None_names in H1.
    by rewrite <- Hp.
Qed.

Lemma depth_VList_elem (Items : list Value) (x : Value) :
  x ∈ Items -> (depth x < depth (VList Items))%nat.
Proof.
  simpl. induction Items as [|y Items IH]; [set_solver|].
  intros [-> | Hin]%elem_of_cons; simpl; [lia|]. specialize (IH Hin). lia.
Qed.

Lemma depth_VMap_elem (Items : Map) (f : Field) :
  f ∈ Items -> (depth (Val f) < depth (VMap Items))%nat.
Proof.
  simpl. induction Items as [|y Items IH]; [set_solver|].
  intros [-> | Hin]%elem_of_cons; simpl; [lia|]. specialize (IH Hin). lia.
Qed.


End value_facts.

(** ** Path element derivation *)

Section derivation.


(** A map with unique names and any reordering of it hold the same value
    for every name: reordering the fields of an element meets the hypothesis
    on the second map below. *)
Lemma reordered_fields_agree (m1 m2 : value.Map) (k : string) :
  NoDup (value.Name <$> m1) -> m1 ≡ₚ m2 ->
  value.Val <$> value.Get m2 k = value.Val <$> value.Get m1 k.
Proof. intros Hnd Hp. by rewrite (Get_Permutation m1 m2 k Hnd Hp). Qed.

(** The index plays no part in the path element of an element of an
    associative list. *)
Lemma listItemToPathElement_index (t : schema.List) (i j : Z) (child : value.Value) :
  schema.ElementRelationship_ t = schema.Associative ->
  typed.listItemToPathElement t i child = typed.listItemToPathElement t j child.
Proof.
  intros Ha. unfold typed.listItemToPathElement. by rewrite !decide_True.
Qed.



Lemma notPrimitive_isScalar (v : value.Value) :
  schema.notPrimitive v = negb (isScalar v).
Proof. by destruct v. Qed.

Lemma candidates_loop (m : value.Map) (names : list string) (keys : list value.Field) :
  fold_left
    (fun (keys : list value.Field) name =>
       match value.Get m name with
       | None => keys
       | Some f => if schema.notPrimitive (value.Val f) then keys else (keys ++ [f])%list
       end) names keys
  = (keys ++ omap (fun name =>
                     match value.Get m name with
                     | Some f => if isScalar (value.Val f) then Some f else None
                     | None => None
                     end) names)%list.
Proof.
  revert keys. induction names as [|name names IH]; intros keys; simpl.
  - by rewrite app_nil_r.
  - rewrite IH. destruct (value.Get m name) as [f|]; [|done].
    rewrite notPrimitive_isScalar. destruct (isScalar (value.Val f)); simpl; [|done].
    by rewrite <- app_assoc.
Qed.


End derivation.

(** ** The validating walker *)

Section validating_walker.

Context `{GoFmt}.

Lemma fold_left_ext_in {A B : Type} (f g : A -> B -> A) (l : list B) (a : A) :
  (forall a x, x ∈ l -> f a x = g a x) ->
  fold_left f l a = fold_left g l a.
Proof.
  revert a. induction l as [|x l IH]; intros a Hfg; [done|]. simpl.
  rewrite Hfg by set_solver. apply IH. intros; apply Hfg; set_solver.
Qed.

(** The body of [validate] calls [validate] only on walkers whose value is
    nested one level deeper in the value of the walker. *)
Lemma validateBody_ext (f g : typed.validation -> typed.ValidationErrors)
    (v : typed.validation) :
  (forall v2, (value.depth (typed.value v2) < value.depth (typed.value v))%nat ->
              f v2 = g v2) ->
  typed.validateBody f v = typed.validateBody g v.
Proof.
  intros Hfg. unfold typed.validateBody.
  destruct (schema.Resolve _ _) as [[t|t|t|t|]|]; try reflexivity.
  - unfold typed.doStruct. destruct (typed.value v) as [| | | | |m|]; try reflexivity.
    erewrite (fold_left_ext_in _ _ (schema.Fields t)); [reflexivity|].
    intros [allowed errs] fld _.
    destruct (value.Get m (schema.Name fld)) as [child|] eqn:Hg; [|done].
    rewrite Hfg; [done|]. simpl.
    apply Get_Some_elem in Hg as [Hin _]. by apply depth_VMap_elem in Hin.
  - unfold typed.doList. destruct (typed.value v) as [| | | |Items| |]; try reflexivity.
    f_equal. apply fold_left_ext_in. intros st child Hin.
    unfold typed.doListIter. destruct (typed.listItemToPathElement _ _ _) as [pe [err|]]; [done|].
    rewrite Hfg; [done|]. simpl. by apply depth_VList_elem.
  - unfold typed.doMap. destruct (typed.value v) as [| | | | |Items|]; try reflexivity.
    apply fold_left_ext_in. intros errs item Hin.
    rewrite Hfg; [done|]. simpl. by apply depth_VMap_elem.
Qed.

Lemma validateUpTo_stable (n m : nat) (v : typed.validation) :
  (value.depth (typed.value v) < n)%nat ->
  (value.depth (typed.value v) < m)%nat ->
  typed.validateUpTo n v = typed.validateUpTo m v.
Proof.
  revert m v. induction n as [|n IH]; intros [|m] v Hn Hm; try lia.
  simpl. apply validateBody_ext. intros v2 Hlt. apply IH; lia.
Qed.

(** [validate] is its body, applied to itself: the walker is total. *)
Lemma validate_unfold (v : typed.validation) :
  typed.validate v = typed.validateBody typed.validate v.
Proof.
  unfold typed.validate at 1. simpl. apply validateBody_ext.
  intros v2 Hlt. apply validateUpTo_stable; lia.
Qed.

(** *** The loop of [doList] *)

Section doList_loop.

Variable validate : typed.validation -> typed.ValidationErrors.
Variable v : typed.validation.
Variable t : schema.List.

Let iter := typed.doListIter validate v t.

Lemma doListIter_next (st : typed.doListState) (child : value.Value) :
  typed.next (iter st child) = typed.next st + 1.
Proof.
  unfold iter, typed.doListIter.
  by destruct (typed.listItemToPathElement _ _ _) as [pe [err|]].
Qed.

Lemma doList_loop_next (Items : list value.Value) (st : typed.doListState) :
  typed.next (fold_left iter Items st) = typed.next st + Z.of_nat (length Items).
Proof.
  revert st. induction Items as [|c Items IH]; intros st; simpl; [lia|].
  rewrite IH, doListIter_next. lia.
Qed.

(** The loop only appends to the errors. *)
Lemma doList_loop_errs (Items : list value.Value) (st : typed.doListState) :
  exists more, typed.errs (fold_left iter Items st) = (typed.errs st ++ more)%list.
Proof.
  revert st. induction Items as [|c Items IH]; intros st; simpl.
  - exists []. by rewrite app_nil_r.
  - destruct (IH (iter st c)) as [more ->].
    unfold iter, typed.doListIter.
    destruct (typed.listItemToPathElement _ _ _) as [pe [err|]]; simpl.
    + eexists. by rewrite <- app_assoc.
    + case_bool_decide; eexists; by rewrite <- !app_assoc.
Qed.




End doList_loop.


End validating_walker.

(** ** The removing walker *)

Section removing_walker.

Context `{GoFmt}.



(** [removeItemsWithSchema] is the dispatch on its walker. *)
Lemma removeItemsWithSchema_unfold (value : value.Value) (toRemove : fieldpath.PathSet)
    (schema : schema.Schema) (typeRef : schema.TypeRef) :
  typed_remove.removeItemsWithSchema value toRemove schema typeRef =
  let w := typed_remove.mkRemovingWalker value schema toRemove in
  typed_remove.resolveSchema schema typeRef value
    (typed_remove.doList typed_remove.removeItemsWithSchema w)
    (typed_remove.doMap typed_remove.removeItemsWithSchema w).
Proof. by destruct value. Qed.

(** *** The loops of [doList] and [doMap] *)

Section loops.

Variable rec : typed_remove.removal.
Variable w : typed_remove.removingWalker.

Lemma doListIter_associative (t : schema.List) (i : Z) (newItems : list value.Value)
    (item : value.Value) :
  schema.ElementRelationship_ t = schema.Associative ->
  typed_remove.doListIter rec w t (i, newItems) item =
  (i + 1,
   if keptItem w t item then (newItems ++ [descendItem rec w t item])%list
   else newItems).
Proof.
  intros Ha. unfold typed_remove.doListIter, keptItem, descendItem, derived.
  rewrite (listItemToPathElement_index t i 0 item Ha).
  destruct (typed.listItemToPathElement t 0 item) as [pe err]. simpl.
  destruct (fieldpath.Has _ _); [done|]. simpl.
  by destruct (fieldpath.Empty _).
Qed.

(** The loop of [doList] keeps, in their order, the elements whose exact
    path is not in the removal set, each after the removal below it. *)
Lemma doList_loop (t : schema.List) (l : list value.Value) (i : Z)
    (newItems : list value.Value) :
  schema.ElementRelationship_ t = schema.Associative ->
  fold_left (typed_remove.doListIter rec w t) l (i, newItems) =
  (i + Z.of_nat (length l),
   (newItems ++ List.map (descendItem rec w t) (List.filter (keptItem w t) l))%list).
Proof.
  intros Ha. revert i newItems.
  induction l as [|item l IH]; intros i newItems.
  - simpl. by rewrite Z.add_0_r, app_nil_r.
  - cbn [fold_left]. rewrite doListIter_associative, IH by done.
    f_equal; [cbn [length]; lia|].
    cbn [List.filter]. destruct (keptItem w t item); [|done].
    cbn [List.map]. by rewrite <- app_assoc.
Qed.

Lemma doMapIter_spec (t : schema.Map) (newMap : list value.Field) (entry : value.Field) :
  typed_remove.doMapIter rec w t newMap entry =
  if keptEntry w t entry then (newMap ++ [descendEntry rec w t entry])%list
  else newMap.
Proof.
  unfold typed_remove.doMapIter, keptEntry, descendEntry.
  destruct (typed_remove.fieldTypes t !! value.Name entry) as [ft|]; simpl.
  - by destruct (fieldpath.Empty _).
  - destruct (fieldpath.Has _ _); [done|]. simpl. by destruct (fieldpath.Empty _).
Qed.

Lemma doMap_loop (t : schema.Map) (m newMap : list value.Field) :
  fold_left (typed_remove.doMapIter rec w t) m newMap =
  (newMap ++ List.map (descendEntry rec w t) (List.filter (keptEntry w t) m))%list.
Proof.
  revert newMap. induction m as [|entry m IH]; intros newMap.
  - simpl. by rewrite app_nil_r.
  - cbn [fold_left]. rewrite doMapIter_spec, IH.
    cbn [List.filter]. destruct (keptEntry w t entry); [|done].
    cbn [List.map]. by rewrite <- app_assoc.
Qed.

Lemma ElementRelationship_cases (r : schema.ElementRelationship) :
  r <> schema.Atomic -> r = schema.Associative.
Proof. by destruct r. Qed.

(** [doList] on a non-empty list that is not atomic. *)
Lemma doList_walk (t : schema.List) (l : list value.Value) :
  typed_remove.value w = value.VList l ->
  l <> [] ->
  schema.ElementRelationship_ t <> schema.Atomic ->
  typed_remove.doList rec w t =
  listOrNull (List.map (descendItem rec w t) (List.filter (keptItem w t) l)).
Proof.
  intros Hv Hl Ha. unfold typed_remove.doList. rewrite Hv.
  rewrite (bool_decide_eq_false_2 (length l = 0%nat)) by by destruct l.
  rewrite bool_decide_eq_false_2 by done. simpl.
  rewrite doList_loop by by apply ElementRelationship_cases. simpl.
  by destruct (List.map _ _).
Qed.

(** [doMap] on a non-empty map that is not atomic. *)
Lemma doMap_walk (t : schema.Map) (m : list value.Field) :
  typed_remove.value w = value.VMap m ->
  m <> [] ->
  schema.Map_ElementRelationship t <> schema.Atomic ->
  typed_remove.doMap rec w t =
  mapOrNull (List.map (descendEntry rec w t) (List.filter (keptEntry w t) m)).
Proof.
  intros Hv Hl Ha. unfold typed_remove.doMap. rewrite Hv.
  rewrite (bool_decide_eq_false_2 (length m = 0%nat)) by by destruct m.
  rewrite bool_decide_eq_false_2 by done. simpl.
  rewrite doMap_loop. simpl.
  by destruct (List.map _ _).
Qed.

(** Both methods leave a container that is empty or atomic, and a value of
    another shape, as it is. *)
Lemma doList_untouched (t : schema.List) :
  (forall l, typed_remove.value w = value.VList l ->
             l = [] \/ schema.ElementRelationship_ t = schema.Atomic) ->
  typed_remove.doList rec w t = typed_remove.value w.
Proof.
  intros Hv. unfold typed_remove.doList.
  destruct (typed_remove.value w) as [| | | |l| |]; try done.
  destruct (Hv l eq_refl) as [-> | ->]; [done|].
  rewrite (bool_decide_eq_true_2 (schema.Atomic = schema.Atomic)) by done.
  by rewrite orb_true_r.
Qed.

Lemma doMap_untouched (t : schema.Map) :
  (forall m, typed_remove.value w = value.VMap m ->
             m = [] \/ schema.Map_ElementRelationship t = schema.Atomic) ->
  typed_remove.doMap rec w t = typed_remove.value w.
Proof.
  intros Hv. unfold typed_remove.doMap.
  destruct (typed_remove.value w) as [| | | | |m|]; try done.
  destruct (Hv m eq_refl) as [-> | ->]; [done|].
  rewrite (bool_decide_eq_true_2 (schema.Atomic = schema.Atomic)) by done.
  by rewrite orb_true_r.
Qed.

End loops.

End removing_walker.

Section removing_walker_properties.

Context `{GoFmt}.

(** C10: on a non-empty list that is not atomic, [doList] keeps exactly the
    elements whose exact path is not in the removal set, in their order (each
    after the removal below it), and stores Null when none is left; so when
    the path of a path element is in the removal set, no element that derives
    this path element is kept, however many there are. *)
Theorem doList_removes_every_occurrence (rec : typed_remove.removal)
    (w : typed_remove.removingWalker) (t : schema.List) (l : list value.Value) :
  typed_remove.value w = value.VList l ->
  l <> [] ->
  schema.ElementRelationship_ t <> schema.Atomic ->
  typed_remove.doList rec w t =
    listOrNull (List.map (descendItem rec w t) (List.filter (keptItem w t) l))
  /\ forall pe,
       fieldpath.Has (typed_remove.toRemove w) (fieldpath.MakePath pe) = true ->
       Forall (fun item => derived t item <> pe) (List.filter (keptItem w t) l).
Proof.
  intros Hv Hl Ha. split; [by apply doList_walk|].
  intros pe Hpe. apply Forall_forall. intros item Hin%list_elem_of_In.
  apply filter_In in Hin as [_ Hkept]. intros <-.
  unfold keptItem in Hkept. by rewrite Hpe in Hkept.
Qed.

Lemma removal_of_nothing_list (rec : typed_remove.removal)
    (w : typed_remove.removingWalker) (t : schema.List) (l : list value.Value) :
  typed_remove.toRemove w = [] ->
  List.map (descendItem rec w t) (List.filter (keptItem w t) l) = l.
Proof.
  intros HR. induction l as [|item l IH]; [done|].
  cbn [List.filter]. unfold keptItem at 1. rewrite HR. simpl.
  rewrite IH. unfold descendItem. by rewrite HR.
Qed.

Lemma removal_of_nothing_map (rec : typed_remove.removal)
    (w : typed_remove.removingWalker) (t : schema.Map) (m : list value.Field) :
  typed_remove.toRemove w = [] ->
  List.map (descendEntry rec w t) (List.filter (keptEntry w t) m) = m.
Proof.
  intros HR. induction m as [|[name val] m IH]; [done|].
  cbn [List.filter]. unfold keptEntry at 1. rewrite HR. simpl.
  destruct (typed_remove.fieldTypes t !! name); simpl;
    rewrite IH; unfold descendEntry; by rewrite HR.
Qed.

(** C9: the removal of the empty path set leaves every value as it is,
    whatever the schema and the type reference. *)
Theorem remove_nothing_is_identity (value : value.Value) (schema : schema.Schema)
    (typeRef : schema.TypeRef) :
  typed_remove.removeItemsWithSchema value [] schema typeRef = value.
Proof.
  rewrite removeItemsWithSchema_unfold. cbv zeta. unfold typed_remove.resolveSchema.
  destruct (schema.Resolve schema typeRef) as [[t|t|t|t|]|]; try reflexivity.
  - destruct (decide (schema.ElementRelationship_ t = schema.Atomic)) as [Ha|Ha].
    { apply doList_untouched. auto. }
    destruct value as [| | | |[|item l]| |]; try reflexivity.
    erewrite doList_walk; [|reflexivity|done|done].
    by rewrite removal_of_nothing_list.
  - destruct (decide (schema.Map_ElementRelationship t = schema.Atomic)) as [Ha|Ha].
    { apply doMap_untouched. auto. }
    destruct value as [| | | | |[|entry m]|]; try reflexivity.
    erewrite doMap_walk; [|reflexivity|done|done].
    by rewrite removal_of_nothing_map.
Qed.


End removing_walker_properties.

Section removal_twice.

Context `{GoFmt}.






(** A value that is neither a list nor a map is left as it is. *)
Lemma removeItemsWithSchema_leaf (value : value.Value) (toRemove : fieldpath.PathSet)
    (schema : schema.Schema) (typeRef : schema.TypeRef) :
  (forall l, value <> value.VList l) ->
  (forall m, value <> value.VMap m) ->
  typed_remove.removeItemsWithSchema value toRemove schema typeRef = value.
Proof.
  intros Hl Hm. rewrite removeItemsWithSchema_unfold. cbv zeta.
  unfold typed_remove.resolveSchema.
  destruct (schema.Resolve schema typeRef) as [[t|t|t|t|]|]; try reflexivity.
  - apply doList_untouched. intros l Hv. by destruct (Hl l).
  - apply doMap_untouched. intros m Hv. by destruct (Hm m).
Qed.

Local Abbreviation remove := typed_remove.removeItemsWithSchema.


End removal_twice.

(** ** Declared fields in [doMap] *)

Section declared_fields.

Context `{GoFmt}.

(** An entry whose name is declared in [Fields] is kept whatever the removal
    set holds: the test of the exact path stands in the branch of the names
    that are not declared. *)
Lemma doMap_keeps_declared (w : typed_remove.removingWalker) (t : schema.Map)
    (entry : value.Field) :
  is_Some (typed_remove.fieldTypes t !! value.Name entry) ->
  keptEntry w t entry = true.
Proof. intros [ft Hft]. unfold keptEntry. by rewrite Hft. Qed.




End declared_fields.

(** ** The messages of type mismatches *)

Section mismatch_messages.

Context `{GoFmt}.

(** A scalar mismatch and a struct mismatch name what was expected and
    render the value. *)
Lemma scalar_and_struct_mismatch (path : fieldpath.Path) (schema : schema.Schema)
    (t : schema.Struct) (b : bool) :
  typed.validate (typed.mkValidation path (value.VBoolean b) schema
                    (schema.Inlined (schema.AScalar schema.String)))
  = [typed.mkValidationError path
       ("expected string, got " ++ value.HumanReadable (value.VBoolean b))] /\
  typed.validate (typed.mkValidation path (value.VBoolean b) schema
                    (schema.Inlined (schema.AStruct t)))
  = [typed.mkValidationError path
       ("expected struct, got " ++ value.HumanReadable (value.VBoolean b))].
Proof. split; by rewrite validate_unfold. Qed.

(** C6 at a string where a list and where a map is expected: the message of
    [doList] is [expected list] and nothing more, without the value; the
    message of [doMap] renders the value but names a list, not a map, as
    what was expected. *)
Theorem list_and_map_mismatch_messages (path : fieldpath.Path)
    (schema : schema.Schema) (tl : schema.List) (tm : schema.Map) (s : string) :
  typed.validate (typed.mkValidation path (value.VString s) schema
                    (schema.Inlined (schema.AList tl)))
  = [typed.mkValidationError path "expected list"] /\
  typed.validate (typed.mkValidation path (value.VString s) schema
                    (schema.Inlined (schema.AMap tm)))
  = [typed.mkValidationError path
       ("expected list, found " ++ value.HumanReadable (value.VString s))].
Proof. split; by rewrite validate_unfold. Qed.

End mismatch_messages.

(** ** The string tables *)

Section string_tables.

Variables v0 v1 : string.
Variable TrimSpace : string -> string.
Variable Split : string -> string -> list string.

Local Abbreviation stringTables := (fieldpath_strings.stringTables v0 v1 TrimSpace Split).
Local Abbreviation reverseTables := (fieldpath_strings.reverseTables v0 v1 TrimSpace Split).
Local Abbreviation GetTable := (fieldpath_strings.GetTable v0 v1 TrimSpace Split).
Local Abbreviation GetReverseTable := (fieldpath_strings.GetReverseTable v0 v1 TrimSpace Split).

Lemma tables_length : length stringTables = 2%nat /\ length reverseTables = 2%nat.
Proof. split; reflexivity. Qed.

(** An index of a known version gives its table. *)
Lemma GetTable_known (i : Z) :
  0 <= i < 2 ->
  (exists t, stringTables !! Z.to_nat i = Some t /\ GetTable i = Returns t) /\
  (exists m, reverseTables !! Z.to_nat i = Some m /\ GetReverseTable i = Returns m).
Proof.
  intros Hi. assert (i = 0 \/ i = 1) as [-> | ->] by lia; split; eexists; split; reflexivity.
Qed.

(** A negative index, and an index above the number of versions, give an
    error. *)
Lemma GetTable_error (i : Z) :
  i < 0 \/ 2 < i ->
  GetTable i = Fails ("unable to lookup string table version " ++ fmt_int i) /\
  GetReverseTable i = Fails ("unable to lookup reverse string table version " ++ fmt_int i).
Proof.
  intros Hi. unfold fieldpath_strings.GetTable, fieldpath_strings.GetReverseTable.
  destruct tables_length as [-> ->].
  assert ((i <? 0) || (i >? Z.of_nat 2) = true) as ->; [|done].
  apply orb_true_iff. destruct Hi; [left; by apply Z.ltb_lt | right; by apply Z.gtb_lt].
Qed.

(** C7 at the index that equals the number of versions: the guard
    [i > len(stringTables)] lets it pass, and the indexing panics. *)
Theorem GetTable_at_length_panics :
  Z.of_nat (length stringTables) = 2 /\
  GetTable 2 = Panics /\
  GetReverseTable 2 = Panics.
Proof. repeat split. Qed.

End string_tables.

(** ** The properties at concrete inputs *)

Section examples.

Local Existing Instance exampleFmt.


(** The same in the set [[a, b, a]]: the third element is a duplicate of
    the first. *)
Example set_duplicate :
  typed.validate (walkerOn (value.VList aba) setOfStrings) =
  [typed.error (walkerOn (value.VList aba) setOfStrings)
     ("duplicate entries for key " ++
      fieldpath.PathElement_String (fieldpath.Value (value.VString "a")))].
Proof. vm_compute. reflexivity. Qed.

(** In the set [[a, b, a]] both occurrences of [a] are removed. *)
Lemma doList_removes_every_occurrence_witness :
  let w := typed_remove.mkRemovingWalker (value.VList aba) emptySchema pathOfValueA in
  typed_remove.doList typed_remove.removeItemsWithSchema w setOfStrings =
    listOrNull (List.map (descendItem typed_remove.removeItemsWithSchema w setOfStrings)
                         (List.filter (keptItem w setOfStrings) aba))
  /\ forall pe,
       fieldpath.Has (typed_remove.toRemove w) (fieldpath.MakePath pe) = true ->
       Forall (fun item => derived setOfStrings item <> pe)
              (List.filter (keptItem w setOfStrings) aba).
Proof.
  intros w.
  apply (doList_removes_every_occurrence typed_remove.removeItemsWithSchema w
           setOfStrings aba).
  - reflexivity.
  - discriminate.
  - discriminate.
Defined.

Example aba_without_a :
  typed_remove.removeItemsWithSchema (value.VList aba) pathOfValueA emptySchema
    (schema.Inlined (schema.AList setOfStrings))
  = value.VList [value.VString "b"].
Proof. vm_compute. reflexivity. Qed.





(** A second input on which the removal is not idempotent, with scalar key
    values: the first removal takes the key field [b] out of [{a: 1, b: 2}];
    the derivation then fails on the element, the walker ignores the error and
    goes on with the key [a = 1] collected before the failure, whose path is
    in the removal set. *)
Example removal_of_a_key_field :
  let typeRef := schema.Inlined (schema.AList byAB) in
  let once := typed_remove.removeItemsWithSchema oneAB bOfABAndA emptySchema typeRef in
  once = value.VList [value.VMap [field "a" (value.VInt 1)]] /\
  typed.listItemToPathElement byAB 0 (value.VMap [field "a" (value.VInt 1)])
  = (fieldpath.Key [field "a" (value.VInt 1)],
     Some "associative list with keys has an element that omits key field b") /\
  typed_remove.removeItemsWithSchema once bOfABAndA emptySchema typeRef = value.VNull.
Proof. vm_compute. repeat split. Qed.



End examples.

(** * Further properties of the code *)

(** ** [Map.Get] and [Map.Set] (value/value.go) *)

Section map_get_set.

Lemma positions_loop (m : list (value.FieldOf value.Value)) (st : nat * gmap string nat) :
  fst (fold_left value.positionsStep m st) = (fst st + length m)%nat.
Proof.
  revert st. induction m as [|f m IH]; intros st; simpl; [lia|].
  rewrite IH. simpl. lia.
Qed.

Lemma buildPositions_snoc (m : list (value.FieldOf value.Value)) (f : value.FieldOf value.Value) :
  value.buildPositions (m ++ [f])%list
  = <[value.Name f := length m]> (value.buildPositions m).
Proof.
  unfold value.buildPositions. rewrite fold_left_app. simpl.
  by rewrite positions_loop.
Qed.

(** The pointer that the index holds for a name is the position of the
    field that [Get] returns, and the index holds none exactly when [Get]
    finds none. *)
Lemma positions_lookup (m : list (value.FieldOf value.Value)) (key : string) :
  match value.buildPositions m !! key with
  | Some p => exists f, m !! p = Some f /\ value.Name f = key /\ value.Get m key = Some f
  | None => value.Get m key = None
  end.
Proof.
  induction m as [|f m IH] using rev_ind; [done|].
  rewrite buildPositions_snoc, Get_snoc, lookup_insert.
  case_decide as Hn.
  - exists f. split; [by apply list_lookup_middle | done].
  - destruct (value.buildPositions m !! key) as [p|]; [|done].
    destruct IH as (g & Hg & Hname & HGet). exists g.
    by rewrite (lookup_app_l_Some _ _ _ _ Hg).
Qed.

Lemma positions_names (m1 m2 : list (value.FieldOf value.Value)) :
  value.Name <$> m1 = value.Name <$> m2 ->
  value.buildPositions m1 = value.buildPositions m2.
Proof.
  unfold value.buildPositions. generalize (0%nat, (∅ : gmap string nat)).
  revert m2. induction m1 as [|f1 m1 IH]; intros [|f2 m2] st Hn; try done.
  rewrite !fmap_cons in Hn. injection Hn as Hf Hn. simpl.
  unfold value.positionsStep at 2 4. rewrite Hf. by apply IH.
Qed.

Lemma names_alter (m : list (value.FieldOf value.Value)) (p : nat) (g : value.FieldOf value.Value -> value.FieldOf value.Value) :
  (forall f, value.Name (g f) = value.Name f) ->
  value.Name <$> alter g p m = value.Name <$> m.
Proof.
  intros Hg. revert p. induction m as [|f m IH]; intros [|p]; simpl; try done.
  - by rewrite Hg.
  - f_equal. apply IH.
Qed.

Lemma positions_Get (m : list (value.FieldOf value.Value)) (key : string) :
  value.Get m key = value.buildPositions m !! key ≫= (m !!.).
Proof.
  pose proof (positions_lookup m key) as Hl.
  destruct (value.buildPositions m !! key) as [p|]; [|done].
  destruct Hl as (f & Hf & _ & ->). by rewrite <- Hf.
Qed.

(** The index that [Get] uses, whether it was there or is built now. *)
Lemma Map_Get_index (m : value.IndexedMap) (key : string) :
  indexValid m ->
  value.Map_Get m key =
  (value.mkIndexedMap (value.Items m) (Some (value.buildPositions (value.Items m))),
   value.buildPositions (value.Items m) !! key).
Proof.
  intros Hv. unfold value.Map_Get.
  destruct (value.index m) as [index|] eqn:Hi; [|done]. by rewrite (Hv index Hi).
Qed.

(** X1: [Get] returns the last item of [Items] that has the name asked for,
    and nothing when no item has it: of two items with one name the later one
    hides the earlier one. *)
Theorem Get_finds_last_field (m : list (value.FieldOf value.Value)) (key : string) :
  value.Get m key = last (filter (fun f => value.Name f = key) m).
Proof.
  induction m as [|f m IH] using rev_ind; [done|].
  rewrite Get_snoc, filter_app, filter_cons, filter_nil.
  case_decide.
  - by rewrite last_snoc.
  - by rewrite app_nil_r.
Qed.

(** X2: on a map whose cache is in order, [Get] leaves [Items] as they are,
    leaves an index that is the index of [Items], and returns a pointer to
    the very field that the lookup in [Items] finds (none when there is no
    such field). *)
Theorem Map_Get_reads_through_index (m : value.IndexedMap) (key : string) :
  indexValid m ->
  value.Items (fst (value.Map_Get m key)) = value.Items m /\
  indexValid (fst (value.Map_Get m key)) /\
  snd (value.Map_Get m key) ≫= (value.Items m !!.) = value.Get (value.Items m) key.
Proof.
  intros Hv. rewrite Map_Get_index by done. simpl. repeat split.
  - by intros index [= <-].
  - by rewrite positions_Get.
Qed.

(** X3: after [Set] of a key, [Get] of that key finds a field with that name
    and the value set, and [Get] of any other key finds what it found
    before. *)
Theorem Map_Set_then_Get (m : value.IndexedMap) (key : string) (v : value.Value) :
  indexValid m ->
  value.Get (value.Items (value.Map_Set m key v)) key = Some (value.mkField key v) /\
  forall key', key' <> key ->
    value.Get (value.Items (value.Map_Set m key v)) key' = value.Get (value.Items m) key'.
Proof.
  intros Hv. unfold value.Map_Set. rewrite Map_Get_index by done.
  pose proof (positions_lookup (value.Items m) key) as Hl.
  destruct (value.buildPositions (value.Items m) !! key) as [p|] eqn:Hp; simpl.
  - destruct Hl as (f & Hf & Hname & _).
    match goal with
    | |- context [alter ?g p ?l] =>
        assert (Hpos : value.buildPositions (alter g p l) = value.buildPositions l)
          by (apply positions_names; by apply names_alter)
    end.
    split.
    + rewrite positions_Get, Hpos, Hp. cbn [mbind option_bind].
      etrans; [apply list_lookup_alter_eq|]. unfold value.Field.
      rewrite Hf. simpl. by rewrite Hname.
    + intros key' Hne. rewrite !positions_Get, Hpos.
      pose proof (positions_lookup (value.Items m) key') as Hl'.
      destruct (value.buildPositions (value.Items m) !! key') as [q|]; [|done].
      cbn [mbind option_bind]. destruct Hl' as (f' & Hf' & Hname' & _).
      apply list_lookup_alter_ne. intros ->. congruence.
  - split.
    + rewrite Get_snoc. by rewrite decide_True.
    + intros key' Hne. rewrite Get_snoc. by rewrite decide_False.
Qed.

(** X4: [Set] keeps the cache in order and the items in their places: the
    names of the items stay as they are when the key is present, and the key
    is appended at the end when it is not; so names that were unique stay
    unique. *)
Theorem Map_Set_keeps_order (m : value.IndexedMap) (key : string) (v : value.Value) :
  indexValid m ->
  indexValid (value.Map_Set m key v) /\
  value.Name <$> value.Items (value.Map_Set m key v)
  = (if decide (key ∈ value.Name <$> value.Items m)
     then value.Name <$> value.Items m
     else (value.Name <$> value.Items m) ++ [key])%list /\
  (NoDup (value.Name <$> value.Items m) ->
   NoDup (value.Name <$> value.Items (value.Map_Set m key v))).
Proof.
  intros Hv. unfold value.Map_Set. rewrite Map_Get_index by done.
  pose proof (positions_lookup (value.Items m) key) as Hl.
  destruct (value.buildPositions (value.Items m) !! key) as [p|] eqn:Hp; simpl.
  - destruct Hl as (f & Hf & Hname & HGet).
    match goal with
    | |- context [alter ?g p ?l] =>
        assert (Hnames : value.Name <$> alter g p l = value.Name <$> l)
          by by apply names_alter
    end.
    assert (Hin : key ∈ value.Name <$> value.Items m).
    { apply list_elem_of_fmap. exists f. split; [done|]. by eapply list_elem_of_lookup_2. }
    rewrite decide_True by done. repeat split.
    + intros index [= <-]. simpl. symmetry. by apply positions_names.
    + done.
    + by rewrite Hnames.
  - apply Get_None_names in Hl. rewrite decide_False by done. repeat split.
    + by intros index [=].
    + by rewrite fmap_app.
    + intros Hnd. rewrite fmap_app. apply NoDup_app. repeat split; [done| |apply NoDup_singleton].
      intros x Hx ->%list_elem_of_singleton. done.
Qed.

End map_get_set.

(** ** Path element derivation: when it fails (typed/validate.go) *)

Section derivation_errors.

(** The loop over the keys that are present: it collects their fields and
    goes on with the rest. *)
Lemma keyedLoop_present (m : value.Map) (present : list string)
    (peKey : list value.Field) :
  (forall k, k ∈ present -> is_Some (value.Get m k)) ->
  exists fields,
    value.Name <$> fields = present /\
    Forall (fun f => value.Val <$> value.Get m (value.Name f) = Some (value.Val f)) fields /\
    forall rest,
      typed.keyedLoop m (present ++ rest)%list peKey
      = typed.keyedLoop m rest (peKey ++ fields)%list.
Proof.
  revert peKey. induction present as [|k present IH]; intros peKey Hall.
  - exists []. repeat split; [constructor|]. intros rest. by rewrite app_nil_r.
  - destruct (Hall k) as [f Hf]; [set_solver|].
    destruct (IH (peKey ++ [value.mkField k (value.Val f)])%list) as (fields & Hn & Hv & Hrest).
    { intros k' Hk'. apply Hall. set_solver. }
    exists (value.mkField k (value.Val f) :: fields). repeat split.
    + by rewrite fmap_cons, Hn.
    + constructor; [|done]. simpl. by rewrite Hf.
    + intros rest. cbn [app typed.keyedLoop]. rewrite Hf, Hrest.
      by rewrite <- app_assoc.
Qed.

Lemma keyedLoop_error (m : value.Map) (Keys : list string) (peKey : list value.Field) :
  snd (typed.keyedLoop m Keys peKey) = None <->
  forall k, k ∈ Keys -> is_Some (value.Get m k).
Proof.
  revert peKey. induction Keys as [|k Keys IH]; intros peKey; simpl.
  - split; [set_solver | done].
  - destruct (value.Get m k) as [f|] eqn:Hf.
    + rewrite IH. split.
      * intros Hall k' [-> | Hk']%elem_of_cons; [by rewrite Hf | by apply Hall].
      * intros Hall k' Hk'. apply Hall. set_solver.
    + simpl. split; [done|]. intros Hall.
      destruct (Hall k) as [f Hf']; [set_solver|]. congruence.
Qed.

(** X5: in an associative list with a non-empty [Keys] list the derivation
    of the path element of an element succeeds exactly when the element is
    a Map that holds every key field; a Null, a scalar, a list and a Map
    without one of the key fields all give an error. *)
Theorem keyed_derivation_succeeds_iff (t : schema.List) (i : Z) (child : value.Value) :
  schema.ElementRelationship_ t = schema.Associative ->
  schema.Keys t <> [] ->
  snd (typed.listItemToPathElement t i child) = None <->
  exists m, child = value.VMap m /\
            forall k, k ∈ schema.Keys t -> is_Some (value.Get m k).
Proof.
  intros Ha Hne. unfold typed.listItemToPathElement.
  rewrite decide_True by done.
  assert ((0 <? length (schema.Keys t))%nat = true) as -> by by destruct (schema.Keys t).
  unfold typed.keyedAssociativeListItemToPathElement.
  destruct child as [| | | | |m|]; simpl;
    try (split; [done | by intros (m & [=] & _)]).
  rewrite keyedLoop_error. split; [eauto|]. by intros (m' & [= <-] & Hall).
Qed.


(** X7: in a set (an associative list without keys) the derivation succeeds
    exactly on the scalar elements, with the element itself as the path
    element; a Map, a List and a Null give an error and the zero path
    element. *)
Theorem set_derivation_succeeds_iff (t : schema.List) (i : Z) (child : value.Value) :
  schema.ElementRelationship_ t = schema.Associative ->
  schema.Keys t = [] ->
  typed.listItemToPathElement t i child =
  (if isScalar child then fieldpath.Value child else fieldpath.Key [],
   snd (typed.listItemToPathElement t i child)) /\
  (snd (typed.listItemToPathElement t i child) = None <-> isScalar child = true).
Proof.
  intros Ha HK. unfold typed.listItemToPathElement.
  rewrite decide_True, HK by done. simpl.
  destruct child; simpl; split; done.
Qed.

End derivation_errors.

(** ** The validating walker: what it reports (typed/validate.go) *)

Section validating_walker_reports.

Context `{GoFmt}.

Lemma fold_left_concat {A B : Type} (g : B -> list A) (l : list B) (acc : list A) :
  fold_left (fun errs x => (errs ++ g x)%list) l acc = (acc ++ concat (List.map g l))%list.
Proof.
  revert acc. induction l as [|x l IH]; intros acc; simpl.
  - by rewrite app_nil_r.
  - by rewrite IH, <- app_assoc.
Qed.

(** [doMap] on a map: the errors of the entries, in the order of the items. *)
Lemma doMap_concat (validate : typed.validation -> typed.ValidationErrors)
    (v : typed.validation) (t : schema.Map) (Items : list value.Field) :
  typed.doMap validate v t (value.VMap Items) =
  concat (List.map (fun item => validate (childWalker v (fieldpath.FieldName (value.Name item))
                                            (value.Val item) (schema.Map_ElementType t)))
                   Items).
Proof. unfold typed.doMap. by rewrite (fold_left_concat _ Items []). Qed.

(** The first loop of [doStruct]: the names allowed and the errors of the
    declared fields that the map holds. *)
Lemma doStruct_fields_loop (validate : typed.validation -> typed.ValidationErrors)
    (v : typed.validation) (m : value.Map) (Fields : list schema.StructField)
    (allowedNames : gset string) (errs : typed.ValidationErrors) :
  fold_left
    (fun '(allowedNames, errs) (f : schema.StructField) =>
       let allowedNames : gset string := {[schema.Name f]} ∪ allowedNames in
       match value.Get m (schema.Name f) with
       | None => (allowedNames, errs)
       | Some child =>
           let v2 := {| typed.path := (typed.path v ++ [fieldpath.FieldName (schema.Name f)])%list;
                        typed.value := value.Val child;
                        typed.schema := typed.schema v;
                        typed.typeRef := schema.Type_ f |} in
           (allowedNames, (errs ++ validate v2)%list)
       end)
    Fields (allowedNames, errs)
  = (list_to_set (schema.Name <$> Fields) ∪ allowedNames,
     (errs ++ concat (List.map
                (fun f : schema.StructField =>
                   match value.Get m (schema.Name f) with
                   | Some child =>
                       validate (childWalker v (fieldpath.FieldName (schema.Name f))
                                   (value.Val child) (schema.Type_ f))
                   | None => []
                   end) Fields))%list).
Proof.
  revert allowedNames errs. induction Fields as [|f Fields IH]; intros allowedNames errs.
  - simpl. f_equal; [set_solver | by rewrite app_nil_r].
  - cbn [fold_left]. destruct (value.Get m (schema.Name f)) as [child|] eqn:Hg;
      rewrite IH; cbn [List.map concat]; rewrite Hg; f_equal;
      rewrite ?fmap_cons, ?list_to_set_cons, <- ?app_assoc; try done; set_solver.
Qed.

(** The second loop of [doStruct]: one error for every item whose name is
    not allowed, in the order of the items. *)
Lemma doStruct_unknown_loop (v : typed.validation) (m : list value.Field)
    (allowedNames : gset string) (errs : typed.ValidationErrors) :
  fold_left
    (fun errs (f : value.Field) =>
       if bool_decide (value.Name f ∈ allowedNames) then errs
       else (errs ++ [typed.error v ("field " ++ value.Name f ++ " is not mentioned in the schema")])%list)
    m errs
  = (errs ++ List.map (fun f => typed.error v ("field " ++ value.Name f ++ " is not mentioned in the schema"))
                      (filter (fun f => value.Name f ∉ allowedNames) m))%list.
Proof.
  revert errs. induction m as [|f m IH]; intros errs.
  - simpl. by rewrite app_nil_r.
  - cbn [fold_left]. rewrite IH, filter_cons. case_bool_decide as Hin.
    + by rewrite decide_False by (by intros ?).
    + rewrite decide_True by done. cbn [List.map]. by rewrite <- app_assoc.
Qed.

Lemma doStruct_concat (validate : typed.validation -> typed.ValidationErrors)
    (v : typed.validation) (t : schema.Struct) (m : list value.Field) :
  typed.doStruct validate v t (value.VMap m) =
  (concat (List.map
             (fun f : schema.StructField =>
                match value.Get m (schema.Name f) with
                | Some child =>
                    validate (childWalker v (fieldpath.FieldName (schema.Name f))
                                (value.Val child) (schema.Type_ f))
                | None => []
                end) (schema.Fields t))
   ++ List.map (fun f => typed.error v ("field " ++ value.Name f ++ " is not mentioned in the schema"))
               (filter (fun f => value.Name f ∉ schema.Name <$> schema.Fields t) m))%list.
Proof.
  unfold typed.doStruct. rewrite doStruct_fields_loop, doStruct_unknown_loop.
  rewrite app_nil_l. f_equal. f_equal. apply list_filter_iff. intros f.
  rewrite union_empty_r_L, elem_of_list_to_set. done.
Qed.

(** X8: the errors of a Map value against a Map atom are the errors of its
    entries, each validated against the element type at the path of its field
    name, in the order of the items and with nothing left out or added; so
    the map is valid exactly when every entry is. *)
Theorem validate_map_is_entrywise (v : typed.validation) (t : schema.Map)
    (Items : list value.Field) :
  schema.Resolve (typed.schema v) (typed.typeRef v) = Some (schema.AMap t) ->
  typed.value v = value.VMap Items ->
  typed.validate v =
    concat (List.map (fun item => typed.validate
                         (childWalker v (fieldpath.FieldName (value.Name item))
                            (value.Val item) (schema.Map_ElementType t)))
                     Items)
  /\ (typed.validate v = [] <->
      Forall (fun item => typed.validate
                 (childWalker v (fieldpath.FieldName (value.Name item))
                    (value.Val item) (schema.Map_ElementType t)) = [])
             Items).
Proof.
  intros Hres Hval.
  assert (E : typed.validate v =
              concat (List.map (fun item => typed.validate
                         (childWalker v (fieldpath.FieldName (value.Name item))
                            (value.Val item) (schema.Map_ElementType t))) Items)).
  { rewrite validate_unfold. unfold typed.validateBody. rewrite Hres, Hval.
    apply doMap_concat. }
  split; [exact E|]. rewrite E. clear. induction Items as [|item Items IH]; simpl.
  - split; [constructor | done].
  - rewrite Forall_cons, <- IH. split.
    + by intros [? ?]%app_eq_nil.
    + by intros [-> ->].
Qed.

(** X9: the errors of a Map value against a Struct atom are the errors of
    the declared fields that the map holds, in the order of [Fields], followed
    by one [not mentioned in the schema] error for every item whose name is
    not declared, in the order of the items; a declared field that the map
    lacks gives no error. *)
Theorem validate_struct_is_closed (v : typed.validation) (t : schema.Struct)
    (m : list value.Field) :
  schema.Resolve (typed.schema v) (typed.typeRef v) = Some (schema.AStruct t) ->
  typed.value v = value.VMap m ->
  typed.validate v =
  (concat (List.map
             (fun f : schema.StructField =>
                match value.Get m (schema.Name f) with
                | Some child =>
                    typed.validate (childWalker v (fieldpath.FieldName (schema.Name f))
                                      (value.Val child) (schema.Type_ f))
                | None => []
                end) (schema.Fields t))
   ++ List.map (fun f => typed.error v ("field " ++ value.Name f ++ " is not mentioned in the schema"))
               (filter (fun f => value.Name f ∉ schema.Name <$> schema.Fields t) m))%list.
Proof.
  intros Hres Hval. rewrite validate_unfold. unfold typed.validateBody.
  rewrite Hres, Hval. apply doStruct_concat.
Qed.

(** The loop of [doList] keeps a property of the errors that the errors of
    the walker itself and the errors of the children have. *)
Lemma doList_loop_Forall (P : typed.ValidationError -> Prop)
    (validate : typed.validation -> typed.ValidationErrors)
    (v : typed.validation) (t : schema.List) (Items : list value.Value)
    (st : typed.doListState) :
  (forall message, P (typed.error v message)) ->
  (forall pe child, Forall P (validate (childWalker v pe child (schema.ElementType t)))) ->
  Forall P (typed.errs st) ->
  Forall P (typed.errs (fold_left (typed.doListIter validate v t) Items st)).
Proof.
  intros Hown Hchild. revert st. induction Items as [|c Items IH]; intros st Hst; [done|].
  cbn [fold_left]. apply IH. unfold typed.doListIter.
  destruct (typed.listItemToPathElement _ _ _) as [pe [err|]]; cbn [typed.errs].
  - apply Forall_app. split; [done|]. by repeat constructor.
  - apply Forall_app. split; [|apply Hchild].
    case_bool_decide; [|done]. apply Forall_app. split; [done|]. by repeat constructor.
Qed.

Lemma validateBody_prefix (f : typed.validation -> typed.ValidationErrors)
    (v : typed.validation) :
  (forall v2, Forall (fun e => typed.path v2 `prefix_of` typed.Path e) (f v2)) ->
  Forall (fun e => typed.path v `prefix_of` typed.Path e) (typed.validateBody f v).
Proof.
  intros Hf.
  assert (Hown : forall message, typed.path v `prefix_of` typed.Path (typed.error v message)).
  { intros message. done. }
  assert (Hchild : forall pe child typeRef,
             Forall (fun e => typed.path v `prefix_of` typed.Path e)
                    (f (childWalker v pe child typeRef))).
  { intros pe child typeRef. eapply Forall_impl; [apply Hf|].
    intros e He. etrans; [|exact He]. by apply prefix_app_r. }
  unfold typed.validateBody.
  destruct (schema.Resolve _ _) as [[t|t|t|t|]|]; [| | | |done|by repeat constructor].
  - unfold typed.doScalar. destruct t, (typed.value v); by repeat constructor.
  - destruct (typed.value v) as [| | | | |m|] eqn:Hv; try (by repeat constructor).
    rewrite doStruct_concat. apply Forall_app. split.
    + apply Forall_concat, Forall_map, Forall_forall. intros fld _.
      destruct (value.Get m (schema.Name fld)); [apply Hchild | done].
    + apply Forall_map, Forall_forall. by intros.
  - unfold typed.doList. destruct (typed.value v) as [| | | |Items| |]; try (by repeat constructor).
    apply doList_loop_Forall; [done| |done]. intros pe child. apply Hchild.
  - destruct (typed.value v) as [| | | | |Items|] eqn:Hv; try (by repeat constructor).
    rewrite doMap_concat. apply Forall_concat, Forall_map, Forall_forall.
    intros item _. apply Hchild.
Qed.

(** X10: every error that the validating walker returns is reported at the
    path of the walker or below it: the path of the walker is a prefix of the
    path of the error. *)
Theorem validate_errors_below_path (v : typed.validation) :
  Forall (fun e => typed.path v `prefix_of` typed.Path e) (typed.validate v).
Proof.
  unfold typed.validate. generalize (S (value.depth (typed.value v))). intros n.
  revert v. induction n as [|n IH]; intros v; [constructor|].
  simpl. by apply validateBody_prefix.
Qed.

(** X11: against a Scalar atom the walker returns no error exactly when the
    value is of the kind of the scalar (an integer or a float for Numeric),
    and otherwise one single error, at the path of the walker; a Null, a list
    and a map are of no scalar kind. *)
Theorem validate_scalar_kind (v : typed.validation) (t : schema.Scalar) :
  schema.Resolve (typed.schema v) (typed.typeRef v) = Some (schema.AScalar t) ->
  (typed.validate v = [] <-> scalarAccepts t (typed.value v) = true) /\
  (scalarAccepts t (typed.value v) = false ->
   exists message, typed.validate v = [typed.mkValidationError (typed.path v) message]).
Proof.
  intros Hres. rewrite validate_unfold. unfold typed.validateBody. rewrite Hres.
  unfold typed.doScalar. destruct t, (typed.value v); simpl; split; try done; eauto.
Qed.

(** *** Lists *)

Lemma string_length_app (s1 s2 : string) :
  String.length (s1 ++ s2) = (String.length s1 + String.length s2)%nat.
Proof.
  induction s1 as [|a s1 IH]; [done|].
  change (String a s1 ++ s2) with (String a (s1 ++ s2)). simpl. by rewrite IH.
Qed.

Lemma string_app_inj_r (s1 s2 t : string) : s1 ++ t = s2 ++ t -> s1 = s2.
Proof.
  revert s2. induction s1 as [|a s1 IH]; intros [|b s2] Heq.
  - done.
  - apply (f_equal String.length) in Heq.
    rewrite !string_length_app in Heq. simpl in Heq. lia.
  - apply (f_equal String.length) in Heq.
    rewrite !string_length_app in Heq. simpl in Heq. lia.
  - change (String a (s1 ++ t) = String b (s2 ++ t)) in Heq.
    injection Heq as -> Heq. f_equal. by apply IH.
Qed.

(** The canonical forms of two indices are the same only for one index. *)
Lemma Index_String_inj (i j : Z) :
  fieldpath.PathElement_String (fieldpath.Index i)
  = fieldpath.PathElement_String (fieldpath.Index j) -> i = j.
Proof.
  simpl. intros Heq%String.app_inj%string_app_inj_r.
  by apply (inj pretty) in Heq.
Qed.

(** The loop of [doList] ends without an error exactly when it started
    without one, every element derives a path element that was not observed
    before the loop and is valid, and no two elements derive path elements of
    one canonical form. *)
Lemma doList_loop_valid (validate : typed.validation -> typed.ValidationErrors)
    (v : typed.validation) (t : schema.List) (Items : list value.Value)
    (st : typed.doListState) :
  typed.errs (fold_left (typed.doListIter validate v t) Items st) = [] <->
  typed.errs st = [] /\
  (forall (i : nat) child, Items !! i = Some child ->
     exists pe,
       typed.listItemToPathElement t (typed.next st + Z.of_nat i) child = (pe, None) /\
       validate (childWalker v pe child (schema.ElementType t)) = [] /\
       fieldpath.PathElement_String pe ∉ typed.observedKeys st) /\
  (forall (i j : nat) ci cj, i <> j -> Items !! i = Some ci -> Items !! j = Some cj ->
     fieldpath.PathElement_String
       (fst (typed.listItemToPathElement t (typed.next st + Z.of_nat i) ci))
     <> fieldpath.PathElement_String
          (fst (typed.listItemToPathElement t (typed.next st + Z.of_nat j) cj))).
Proof.
  revert st. induction Items as [|c Items IH]; intros st.
  { simpl. split; [|tauto]. intros ->. repeat split; intros; done. }
  cbn [fold_left]. rewrite IH. clear IH.
  assert (Hshift : forall i : nat,
             typed.next (typed.doListIter validate v t st c) + Z.of_nat i
             = typed.next st + Z.of_nat (S i)).
  { intros i. rewrite doListIter_next. lia. }
  unfold typed.doListIter in *.
  destruct (typed.listItemToPathElement t (typed.next st) c) as [pe [err|]] eqn:Hc;
    cbn [typed.errs typed.observedKeys typed.next] in *.
  - split.
    + intros [Herr _]. by destruct (typed.errs st).
    + intros (_ & HA & _). destruct (HA 0%nat c eq_refl) as (pe' & Hpe' & _).
      rewrite Z.add_0_r in Hpe'. congruence.
  - fold (childWalker v pe c (schema.ElementType t)). split.
    + intros (Herr & HA & HB).
      apply app_eq_nil in Herr as [Herr Hvalid].
      case_bool_decide as Hseen; [by destruct (typed.errs st)|].
      split; [done|]. split.
      * intros [|i] child Hi.
        -- injection Hi as <-. exists pe. by rewrite Z.add_0_r.
        -- destruct (HA i child Hi) as (pe' & Hpe' & Hv' & Hobs).
           exists pe'. rewrite <- Hshift. repeat split; [done..|]. set_solver.
      * intros [|i] [|j] ci cj Hij Hi Hj; try done.
        -- injection Hi as <-. destruct (HA j cj Hj) as (pe' & Hpe' & _ & Hobs).
           rewrite Z.add_0_r, Hc, <- Hshift, Hpe'. simpl. set_solver.
        -- injection Hj as <-. destruct (HA i ci Hi) as (pe' & Hpe' & _ & Hobs).
           rewrite Z.add_0_r, Hc, <- Hshift, Hpe'. simpl. set_solver.
        -- rewrite <- !Hshift. apply HB; [congruence|done..].
    + intros (Herr & HA & HB).
      destruct (HA 0%nat c eq_refl) as (pe0 & Hpe0 & Hv0 & Hobs0).
      rewrite Z.add_0_r, Hc in Hpe0. injection Hpe0 as <-.
      rewrite bool_decide_eq_false_2, Herr, Hv0 by done. split; [done|]. split.
      * intros i child Hi. destruct (HA (S i) child Hi) as (pe' & Hpe' & Hv' & Hobs).
        exists pe'. rewrite Hshift. repeat split; [done..|].
        intros [Hsame%elem_of_singleton | ?]%elem_of_union; [|done].
        apply (HB (S i) 0%nat child c); [done..|].
        by rewrite Hpe', Z.add_0_r, Hc.
      * intros i j ci cj Hij Hi Hj. rewrite !Hshift.
        apply (HB (S i) (S j)); [congruence|done..].
Qed.

(** X12: a list value is valid against a List atom exactly when every
    element derives a path element without error and is itself valid against
    the element type at that path element, and no two elements derive path
    elements of one canonical string form. *)
Theorem validate_list_valid_iff (v : typed.validation) (t : schema.List)
    (Items : list value.Value) :
  schema.Resolve (typed.schema v) (typed.typeRef v) = Some (schema.AList t) ->
  typed.value v = value.VList Items ->
  typed.validate v = [] <->
  (forall (i : nat) child, Items !! i = Some child ->
     exists pe,
       typed.listItemToPathElement t (Z.of_nat i) child = (pe, None) /\
       typed.validate (childWalker v pe child (schema.ElementType t)) = []) /\
  (forall (i j : nat) ci cj, i <> j -> Items !! i = Some ci -> Items !! j = Some cj ->
     fieldpath.PathElement_String (fst (typed.listItemToPathElement t (Z.of_nat i) ci))
     <> fieldpath.PathElement_String (fst (typed.listItemToPathElement t (Z.of_nat j) cj))).
Proof.
  intros Hres Hval. rewrite validate_unfold. unfold typed.validateBody.
  rewrite Hres, Hval. unfold typed.doList. rewrite doList_loop_valid.
  cbn [typed.errs typed.next typed.observedKeys]. split.
  - intros (_ & HA & HB). split.
    + intros i child Hi. destruct (HA i child Hi) as (pe & Hpe & Hv & _).
      rewrite Z.add_0_l in Hpe. eauto.
    + intros i j ci cj Hij Hi Hj. specialize (HB i j ci cj Hij Hi Hj).
      by rewrite !Z.add_0_l in HB.
  - intros [HA HB]. split; [done|]. split.
    + intros i child Hi. destruct (HA i child Hi) as (pe & Hpe & Hv).
      exists pe. rewrite Z.add_0_l. repeat split; [done..|]. set_solver.
    + intros i j ci cj Hij Hi Hj. rewrite !Z.add_0_l. by apply HB.
Qed.

(** X13: in an atomic list the index is the identity of an element, so the
    walker never reports an element or a duplicate: the list is valid exactly
    when every element is valid against the element type at its index. *)
Theorem validate_atomic_list_valid_iff (v : typed.validation) (t : schema.List)
    (Items : list value.Value) :
  schema.Resolve (typed.schema v) (typed.typeRef v) = Some (schema.AList t) ->
  typed.value v = value.VList Items ->
  schema.ElementRelationship_ t = schema.Atomic ->
  typed.validate v = [] <->
  forall (i : nat) child, Items !! i = Some child ->
    typed.validate (childWalker v (fieldpath.Index (Z.of_nat i)) child
                      (schema.ElementType t)) = [].
Proof.
  intros Hres Hval Ha. rewrite validate_unfold. unfold typed.validateBody.
  rewrite Hres, Hval. unfold typed.doList. rewrite doList_loop_valid.
  cbn [typed.errs typed.next typed.observedKeys].
  assert (Hpe : forall i child,
             typed.listItemToPathElement t i child = (fieldpath.Index i, None)).
  { intros i child. unfold typed.listItemToPathElement. by rewrite Ha. }
  split.
  - intros (_ & HA & _) i child Hi. destruct (HA i child Hi) as (pe & Hd & Hv & _).
    rewrite Hpe, Z.add_0_l in Hd. by injection Hd as <-.
  - intros HA. split; [done|]. split.
    + intros i child Hi. exists (fieldpath.Index (0 + Z.of_nat i)).
      rewrite Hpe. repeat split; [|set_solver]. rewrite Z.add_0_l. by apply HA.
    + intros i j ci cj Hij Hi Hj. rewrite !Hpe. cbn [fst].
      intros Heq%Index_String_inj. lia.
Qed.

End validating_walker_reports.

(** ** The removing walker: what it never does *)

Section removing_walker_shape.

Context `{GoFmt}.

Lemma filter_map_length {A B : Type} (keep : A -> bool) (g : A -> B) (l : list A) :
  (length (List.map g (List.filter keep l)) <= length l)%nat.
Proof.
  rewrite length_map. induction l as [|x l IH]; simpl; [lia|].
  destruct (keep x); simpl; lia.
Qed.

Lemma surviving_names (rec : typed_remove.removal) (w : typed_remove.removingWalker)
    (t : schema.Map) (m : list value.Field) :
  value.Name <$> List.map (descendEntry rec w t) (List.filter (keptEntry w t) m)
  `sublist_of` value.Name <$> m.
Proof.
  induction m as [|entry m IH]; simpl; [done|].
  destruct (keptEntry w t entry); simpl.
  - by apply sublist_skip.
  - by apply sublist_cons.
Qed.

(** X14: the removal never adds to a container and never reorders it: of a
    list it leaves Null or a list that is not longer, of a map it leaves Null
    or a map whose field names are, in their order, among the field names it
    had, and a value that is neither a list nor a map it leaves as it is. *)
Theorem removal_never_adds (value : value.Value) (toRemove : fieldpath.PathSet)
    (schema : schema.Schema) (typeRef : schema.TypeRef) :
  match value with
  | value.VList l =>
      typed_remove.removeItemsWithSchema value toRemove schema typeRef = value.VNull \/
      exists l', typed_remove.removeItemsWithSchema value toRemove schema typeRef = value.VList l' /\
                 (length l' <= length l)%nat
  | value.VMap m =>
      typed_remove.removeItemsWithSchema value toRemove schema typeRef = value.VNull \/
      exists m', typed_remove.removeItemsWithSchema value toRemove schema typeRef = value.VMap m' /\
                 value.Name <$> m' `sublist_of` value.Name <$> m
  | _ => typed_remove.removeItemsWithSchema value toRemove schema typeRef = value
  end.
Proof.
  destruct value as [bits|i|s|b|l|m|]; try (by apply removeItemsWithSchema_leaf).
  - rewrite removeItemsWithSchema_unfold. cbv zeta. unfold typed_remove.resolveSchema.
    destruct (schema.Resolve schema typeRef) as [[t|t|t|t|]|]; try (right; by exists l).
    destruct (decide (l = [] \/ schema.ElementRelationship_ t = schema.Atomic)) as [Hu|Hu].
    { right. exists l. split; [|done]. apply doList_untouched. by intros ? [= <-]. }
    erewrite doList_walk; [|reflexivity|tauto|tauto].
    destruct (List.map _ _) as [|x l'] eqn:HL; [by left|]. right.
    eexists. split; [reflexivity|]. rewrite <- HL. apply filter_map_length.
  - rewrite removeItemsWithSchema_unfold. cbv zeta. unfold typed_remove.resolveSchema.
    destruct (schema.Resolve schema typeRef) as [[t|t|t|t|]|]; try (right; by exists m).
    destruct (decide (m = [] \/ schema.Map_ElementRelationship t = schema.Atomic)) as [Hu|Hu].
    { right. exists m. split; [|done]. apply doMap_untouched. by intros ? [= <-]. }
    erewrite doMap_walk; [|reflexivity|tauto|tauto].
    destruct (List.map _ _) as [|x m'] eqn:HL; [by left|]. right.
    eexists. split; [reflexivity|]. rewrite <- HL. apply surviving_names.
Qed.

Lemma scalar_set_survivors (w : typed_remove.removingWalker) (t : schema.List)
    (l : list value.Value) :
  schema.ElementRelationship_ t = schema.Associative ->
  schema.Keys t = [] ->
  Forall (fun x => isScalar x = true) l ->
  List.map (descendItem typed_remove.removeItemsWithSchema w t) (List.filter (keptItem w t) l)
  = List.filter
      (fun x => negb (fieldpath.Has (typed_remove.toRemove w)
                        (fieldpath.MakePath (fieldpath.Value x)))) l.
Proof.
  intros Ha HK Hscalar. induction Hscalar as [|x l Hx _ IH]; [done|].
  assert (Hd : derived t x = fieldpath.Value x).
  { unfold derived, typed.listItemToPathElement. rewrite decide_True, HK by done.
    by destruct x. }
  cbn [List.filter]. unfold keptItem at 1. rewrite Hd.
  destruct (fieldpath.Has _ _); cbn [negb]; [exact IH|].
  cbn [List.map]. rewrite IH. f_equal.
  unfold descendItem. destruct (fieldpath.Empty _); [done|].
  apply removeItemsWithSchema_leaf; intros ? ->; done.
Qed.

(** X15: on a set of scalars the removal is a filter: it leaves, in their
    order, the elements whose own path is not in the removal set, each as it
    was, and Null when none is left. *)
Theorem removal_filters_scalar_set (l : list value.Value) (toRemove : fieldpath.PathSet)
    (schema : schema.Schema) (t : schema.List) :
  schema.ElementRelationship_ t = schema.Associative ->
  schema.Keys t = [] ->
  Forall (fun x => isScalar x = true) l ->
  l <> [] ->
  typed_remove.removeItemsWithSchema (value.VList l) toRemove schema
    (schema.Inlined (schema.AList t))
  = listOrNull (List.filter
                  (fun x => negb (fieldpath.Has toRemove (fieldpath.MakePath (fieldpath.Value x))))
                  l).
Proof.
  intros Ha HK Hscalar Hl.
  rewrite removeItemsWithSchema_unfold. cbv zeta. unfold typed_remove.resolveSchema.
  cbn [schema.Resolve].
  erewrite doList_walk; [|reflexivity|done|by rewrite Ha].
  by rewrite scalar_set_survivors.
Qed.

End removing_walker_shape.

(** ** The string tables: the two tables of a version *)

Section string_tables_round_trip.

Variables v0 v1 : string.
Variable TrimSpace : string -> string.
Variable Split : string -> string -> list string.

Lemma reverseOf_loop (s : list string) (st : Z * gmap string Z) :
  fst (fold_left (fun '(i, m) x => (i + 1, <[x := i]> m)) s st)
  = fst st + Z.of_nat (length s).
Proof.
  revert st. induction s as [|x s IH]; intros [i m]; simpl; [lia|].
  rewrite IH. simpl. lia.
Qed.

Lemma reverseOf_snoc (s : list string) (x : string) :
  fieldpath_strings.reverseOf (s ++ [x])%list
  = <[x := Z.of_nat (length s)]> (fieldpath_strings.reverseOf s).
Proof.
  unfold fieldpath_strings.reverseOf. rewrite fold_left_app.
  pose proof (reverseOf_loop s (0, ∅)) as Hfst.
  destruct (fold_left _ s (0, ∅)) as [i m]. simpl in *. by subst.
Qed.

(** The reverse map of a table sends a string of the table to the index of
    its last occurrence, and holds no other string. *)
Lemma reverseOf_lookup (s : list string) (x : string) :
  match fieldpath_strings.reverseOf s !! x with
  | Some j => 0 <= j /\ s !! Z.to_nat j = Some x /\
              forall k : nat, (Z.to_nat j < k)%nat -> s !! k <> Some x
  | None => x ∉ s
  end.
Proof.
  induction s as [|y s IH] using rev_ind.
  - unfold fieldpath_strings.reverseOf. simpl. rewrite lookup_empty. set_solver.
  - rewrite reverseOf_snoc, lookup_insert. case_decide as Hy.
    + subst y. rewrite Nat2Z.id. repeat split; [lia|by apply list_lookup_middle|].
      intros k Hk. rewrite lookup_ge_None_2; [done|]. rewrite length_app. simpl. lia.
    + destruct (fieldpath_strings.reverseOf s !! x) as [j|].
      * destruct IH as (Hj & Hx & Hlast). repeat split; [done| |].
        -- by apply lookup_app_l_Some.
        -- intros k Hk. destruct (decide (k < length s)%nat) as [Hlt|Hge].
           ++ rewrite lookup_app_l by done. by apply Hlast.
           ++ destruct (decide (k = length s)) as [->|Hne].
              ** rewrite list_lookup_middle by done. congruence.
              ** rewrite lookup_ge_None_2; [done|]. rewrite length_app. simpl. lia.
      * set_solver.
Qed.

(** X16: the two tables of a version belong together: when [GetTable] and
    [GetReverseTable] return for a version, the map sends every string of the
    table to an index at which the table holds that string (the last one),
    and holds no string that is not in the table. *)
Theorem reverse_table_inverts_table (i : Z) (t : list string) (m : gmap string Z) :
  fieldpath_strings.GetTable v0 v1 TrimSpace Split i = Returns t ->
  fieldpath_strings.GetReverseTable v0 v1 TrimSpace Split i = Returns m ->
  (forall x j, m !! x = Some j -> 0 <= j /\ t !! Z.to_nat j = Some x) /\
  (forall x, x ∈ t <-> is_Some (m !! x)).
Proof.
  unfold fieldpath_strings.GetTable, fieldpath_strings.GetReverseTable.
  destruct (tables_length v0 v1 TrimSpace Split) as [-> ->].
  destruct ((i <? 0) || (i >? _)); [done|].
  assert (Hm : fieldpath_strings.reverseTables v0 v1 TrimSpace Split
               = fieldpath_strings.reverseOf <$> fieldpath_strings.stringTables v0 v1 TrimSpace Split)
    by reflexivity.
  rewrite Hm, list_lookup_fmap.
  destruct (fieldpath_strings.stringTables v0 v1 TrimSpace Split !! Z.to_nat i) as [t'|];
    [|done].
  simpl. intros [= <-] [= <-]. split.
  - intros x j Hx. pose proof (reverseOf_lookup t' x) as Hl. rewrite Hx in Hl. tauto.
  - intros x. pose proof (reverseOf_lookup t' x) as Hl.
    destruct (fieldpath_strings.reverseOf t' !! x) as [j|].
    + split; [eauto|]. intros _. destruct Hl as (_ & Hl & _).
      by eapply list_elem_of_lookup_2.
    + split; [done | by intros [? ?]].
Qed.

End string_tables_round_trip.

(** ** The schema-less derivation and the derivation by keys *)

Section guess.

Lemma scalarCandidates_fields (m : value.Map) :
  Forall (fun f => value.Get m (value.Name f) = Some f /\ isScalar (value.Val f) = true /\
                   value.Name f ∈ schema.AssociativeListCandidateFieldNames)
         (scalarCandidates m).
Proof.
  apply Forall_forall. intros f Hf. unfold scalarCandidates in Hf.
  apply list_elem_of_omap in Hf as (name & Hname & Hf).
  destruct (value.Get m name) as [g|] eqn:Hg; [|done].
  destruct (isScalar (value.Val g)) eqn:Hs; [|done]. injection Hf as ->.
  destruct (Get_Some_elem _ _ _ Hg) as [_ Hn]. rewrite Hn. done.
Qed.

Lemma GuessBest_candidates (index : Z) (m : value.Map) :
  schema.GuessBestListPathElement index (value.VMap m) =
  match scalarCandidates m with
  | [] => fieldpath.Index index
  | keys => fieldpath.Key keys
  end.
Proof.
  unfold schema.GuessBestListPathElement, schema.AssociativeListCandidateFieldNames.
  rewrite candidates_loop, app_nil_l.
  change (omap _ _) with (scalarCandidates m).
  by destruct (scalarCandidates m).
Qed.

(** X17: when the schema-less derivation gives a key, the key is not empty,
    the element is a Map, and every field of the key is the field that the
    map holds under its name, has a scalar value, and is named [key], [id] or
    [name]. *)
Theorem GuessBest_key_is_sound (index : Z) (item : value.Value)
    (keys : list value.Field) :
  schema.GuessBestListPathElement index item = fieldpath.Key keys ->
  keys <> [] /\
  exists m, item = value.VMap m /\
    Forall (fun f => value.Get m (value.Name f) = Some f /\ isScalar (value.Val f) = true /\
                     value.Name f ∈ schema.AssociativeListCandidateFieldNames) keys.
Proof.
  destruct item as [| | | | |m|]; try done.
  rewrite GuessBest_candidates. pose proof (scalarCandidates_fields m) as Hall.
  destruct (scalarCandidates m) as [|f fs]; [done|].
  intros [= <-]. split; [done|]. by exists m.
Qed.

Lemma fields_by_name (m : value.Map) (l1 l2 : list value.Field) :
  value.Name <$> l1 = value.Name <$> l2 ->
  Forall (fun f => value.Val <$> value.Get m (value.Name f) = Some (value.Val f)) l1 ->
  Forall (fun f => value.Get m (value.Name f) = Some f) l2 ->
  l1 = l2.
Proof.
  revert l2. induction l1 as [|[n1 x1] l1 IH]; intros [|[n2 x2] l2] Hn H1 H2; try done.
  rewrite !fmap_cons in Hn. injection Hn as Hn Hns. simpl in Hn. subst n2.
  apply Forall_cons in H1 as [Hf1 H1]. apply Forall_cons in H2 as [Hf2 H2].
  simpl in Hf1, Hf2. rewrite Hf2 in Hf1. simpl in Hf1. injection Hf1 as ->.
  f_equal. by apply IH.
Qed.

(** X18: the two derivations agree: in an associative list whose [Keys] are
    the names of the candidate fields that an element holds with scalar
    values, the derivation by keys gives, without error, the path element
    that the schema-less derivation gives for that element. *)
Theorem keyed_derivation_agrees_with_guess (t : schema.List) (i index : Z)
    (m : value.Map) :
  schema.ElementRelationship_ t = schema.Associative ->
  schema.Keys t = value.Name <$> scalarCandidates m ->
  schema.Keys t <> [] ->
  typed.listItemToPathElement t i (value.VMap m)
  = (schema.GuessBestListPathElement index (value.VMap m), None).
Proof.
  intros Ha HK Hne. pose proof (scalarCandidates_fields m) as Hall.
  rewrite GuessBest_candidates.
  destruct (keyedLoop_present m (schema.Keys t) []) as (fields & Hn & Hv & Hrest).
  { intros k Hk. rewrite HK in Hk. apply list_elem_of_fmap in Hk as (f & -> & Hf).
    rewrite Forall_forall in Hall. destruct (Hall f Hf) as [-> _]. eauto. }
  assert (fields = scalarCandidates m) as ->.
  { apply (fields_by_name m); [by rewrite Hn| done |].
    eapply Forall_impl; [exact Hall|]. by intros f [? _]. }
  unfold typed.listItemToPathElement, typed.keyedAssociativeListItemToPathElement.
  rewrite decide_True by done.
  assert ((0 <? length (schema.Keys t))%nat = true) as -> by by destruct (schema.Keys t).
  specialize (Hrest []). rewrite app_nil_r in Hrest. rewrite Hrest. simpl.
  destruct (scalarCandidates m); [|done]. by rewrite HK in Hne.
Qed.

End guess.

(** ** The validating walker: edges *)

Section validating_walker_edges.

Context `{GoFmt}.

(** X19: a named type that the catalog does not hold gives one single error,
    at the path of the walker, that names the type; the value is not looked
    at. *)
Theorem validate_unknown_type (v : typed.validation) (name : string) :
  typed.typeRef v = schema.NamedType name ->
  name ∉ schema.TypeDef_Name <$> schema.Types (typed.schema v) ->
  typed.validate v =
  [typed.mkValidationError (typed.path v) ("no type found matching: " ++ name)].
Proof.
  intros Htr Hname. rewrite validate_unfold. unfold typed.validateBody.
  rewrite Htr. cbn [schema.Resolve].
  destruct (find _ _) as [td|] eqn:Hfind; [|done].
  exfalso. apply find_some in Hfind as [Hin Heq%bool_decide_eq_true].
  apply Hname. apply list_elem_of_fmap. exists td. split; [done|].
  by apply list_elem_of_In.
Qed.

(** X20: Null is valid for every Struct, List and Map atom, and so are the
    empty list for a List atom and the empty map for a Struct and for a Map
    atom: no element, no field and no entry is required. *)
Theorem validate_null_and_empty (v : typed.validation) (a : schema.Atom) :
  schema.Resolve (typed.schema v) (typed.typeRef v) = Some a ->
  match a, typed.value v with
  | (schema.AStruct _ | schema.AList _ | schema.AMap _), value.VNull => typed.validate v = []
  | schema.AList _, value.VList [] => typed.validate v = []
  | (schema.AStruct _ | schema.AMap _), value.VMap [] => typed.validate v = []
  | _, _ => True
  end.
Proof.
  intros Hres. rewrite validate_unfold. unfold typed.validateBody. rewrite Hres.
  destruct a as [t|t|t|t|], (typed.value v) as [| | | |[|x l]|[|f m]|]; try done.
  rewrite doStruct_concat. rewrite filter_nil. cbn [List.map]. rewrite app_nil_r.
  clear. induction (schema.Fields t) as [|f fs IH]; [done|].
  cbn [List.map concat]. by rewrite Get_nil, IH.
Qed.

(** X21: an element of a list whose path element cannot be derived is
    reported by its index, with the reason, at the path of the list. *)
Theorem validate_reports_underivable_element (v : typed.validation) (t : schema.List)
    (Items : list value.Value) (i : nat) (child : value.Value)
    (pe : fieldpath.PathElement) (err : string) :
  schema.Resolve (typed.schema v) (typed.typeRef v) = Some (schema.AList t) ->
  typed.value v = value.VList Items ->
  Items !! i = Some child ->
  typed.listItemToPathElement t (Z.of_nat i) child = (pe, Some err) ->
  exists before after,
    typed.validate v =
    (before
     ++ typed.mkValidationError (typed.path v)
          ("element " ++ fmt_int (Z.of_nat i) ++ ": " ++ err)
     :: after)%list.
Proof.
  intros Hres Hval Hi Hpe. rewrite validate_unfold. unfold typed.validateBody.
  rewrite Hres, Hval. unfold typed.doList.
  rewrite <- (take_drop_middle Items i child Hi), fold_left_app. cbn [fold_left].
  set (st := fold_left _ (take i Items) _).
  assert (Hnext : typed.next st = Z.of_nat i).
  { unfold st. rewrite doList_loop_next, length_take. cbn [typed.next].
    apply lookup_lt_Some in Hi. lia. }
  destruct (doList_loop_errs typed.validate v t (drop (S i) Items)
              (typed.doListIter typed.validate v t st child)) as [after ->].
  exists (typed.errs st), after.
  unfold typed.doListIter. rewrite Hnext, Hpe. cbn [typed.errs].
  by rewrite <- app_assoc.
Qed.

End validating_walker_edges.

(** ** The string tables: every index *)

Section string_tables_bounds.

Variables v0 v1 : string.
Variable TrimSpace : string -> string.
Variable Split : string -> string -> list string.

(** X22: [GetTable] and [GetReverseTable] return the table of [v0] for the
    index 0 and the table of [v1] for the index 1, the lines of the trimmed
    constant (and the reverse map of these lines), and return an error that
    names the index for every negative index and every index above 2. *)
Theorem GetTable_by_index :
  fieldpath_strings.GetTable v0 v1 TrimSpace Split 0
    = Returns (Split (TrimSpace v0) fieldpath_strings.newline) /\
  fieldpath_strings.GetTable v0 v1 TrimSpace Split 1
    = Returns (Split (TrimSpace v1) fieldpath_strings.newline) /\
  fieldpath_strings.GetReverseTable v0 v1 TrimSpace Split 0
    = Returns (fieldpath_strings.reverseOf (Split (TrimSpace v0) fieldpath_strings.newline)) /\
  fieldpath_strings.GetReverseTable v0 v1 TrimSpace Split 1
    = Returns (fieldpath_strings.reverseOf (Split (TrimSpace v1) fieldpath_strings.newline)) /\
  forall i, i < 0 \/ 2 < i ->
    fieldpath_strings.GetTable v0 v1 TrimSpace Split i
      = Fails ("unable to lookup string table version " ++ fmt_int i) /\
    fieldpath_strings.GetReverseTable v0 v1 TrimSpace Split i
      = Fails ("unable to lookup reverse string table version " ++ fmt_int i).
Proof.
  do 4 (split; [reflexivity|]).
  intros i Hi. unfold fieldpath_strings.GetTable, fieldpath_strings.GetReverseTable.
  destruct (tables_length v0 v1 TrimSpace Split) as [-> ->].
  assert ((i <? 0) || (i >? Z.of_nat 2) = true) as ->; [|done].
  apply orb_true_iff. destruct Hi; [left; by apply Z.ltb_lt | right; by apply Z.gtb_lt].
Qed.

End string_tables_bounds.

(** ** The further properties at concrete inputs *)

Section further_examples.

Local Existing Instance exampleFmt.

Lemma Map_Get_reads_through_index_witness :
  value.Items (fst (value.Map_Get mapAB "b")) = value.Items mapAB /\
  indexValid (fst (value.Map_Get mapAB "b")) /\
  snd (value.Map_Get mapAB "b") ≫= (value.Items mapAB !!.)
  = value.Get (value.Items mapAB) "b".
Proof.
  apply (Map_Get_reads_through_index mapAB "b").
  intros index Hindex. discriminate Hindex.
Defined.

(** [Set] of a key that is present, on a map whose index was built by a
    [Get]. *)
Lemma Map_Set_then_Get_witness :
  value.Get (value.Items (value.Map_Set (fst (value.Map_Get mapAB "a")) "a" (value.VInt 7))) "a"
  = Some (value.mkField "a" (value.VInt 7)) /\
  forall key', key' <> "a" ->
    value.Get (value.Items (value.Map_Set (fst (value.Map_Get mapAB "a")) "a" (value.VInt 7))) key'
    = value.Get (value.Items (fst (value.Map_Get mapAB "a"))) key'.
Proof.
  apply (Map_Set_then_Get (fst (value.Map_Get mapAB "a")) "a" (value.VInt 7)).
  intros index Hindex. injection Hindex as <-. reflexivity.
Defined.

(** [Set] of a key that is not present. *)
Lemma Map_Set_keeps_order_witness :
  indexValid (value.Map_Set mapAB "c" (value.VInt 3)) /\
  value.Name <$> value.Items (value.Map_Set mapAB "c" (value.VInt 3))
  = (if decide ("c" ∈ value.Name <$> value.Items mapAB)
     then value.Name <$> value.Items mapAB
     else (value.Name <$> value.Items mapAB) ++ ["c"])%list /\
  (NoDup (value.Name <$> value.Items mapAB) ->
   NoDup (value.Name <$> value.Items (value.Map_Set mapAB "c" (value.VInt 3)))).
Proof.
  apply (Map_Set_keeps_order mapAB "c" (value.VInt 3)).
  intros index Hindex. discriminate Hindex.
Defined.

Lemma keyed_derivation_succeeds_iff_witness :
  snd (typed.listItemToPathElement listById 0 (value.VMap [field "extra" (value.VInt 1)])) = None <->
  exists m, value.VMap [field "extra" (value.VInt 1)] = value.VMap m /\
            forall k, k ∈ schema.Keys listById -> is_Some (value.Get m k).
Proof.
  apply (keyed_derivation_succeeds_iff listById 0 (value.VMap [field "extra" (value.VInt 1)])).
  - reflexivity.
  - discriminate.
Defined.


Lemma set_derivation_succeeds_iff_witness :
  typed.listItemToPathElement setOfStrings 2 (value.VList []) =
  (if isScalar (value.VList []) then fieldpath.Value (value.VList []) else fieldpath.Key [],
   snd (typed.listItemToPathElement setOfStrings 2 (value.VList []))) /\
  (snd (typed.listItemToPathElement setOfStrings 2 (value.VList [])) = None
   <-> isScalar (value.VList []) = true).
Proof.
  apply (set_derivation_succeeds_iff setOfStrings 2 (value.VList [])); reflexivity.
Defined.

Lemma validate_map_is_entrywise_witness :
  let v := rootWalker (value.VMap nameAndBogus) (schema.Inlined (schema.AMap (mapOf numeric))) in
  typed.validate v =
    concat (List.map (fun item => typed.validate
                         (childWalker v (fieldpath.FieldName (value.Name item))
                            (value.Val item) (schema.Map_ElementType (mapOf numeric))))
                     nameAndBogus)
  /\ (typed.validate v = [] <->
      Forall (fun item => typed.validate
                 (childWalker v (fieldpath.FieldName (value.Name item))
                    (value.Val item) (schema.Map_ElementType (mapOf numeric))) = [])
             nameAndBogus).
Proof.
  intros v. apply (validate_map_is_entrywise v (mapOf numeric) nameAndBogus); reflexivity.
Defined.

(** The closed struct of the specification: [{name: x, bogus: 1}] against a
    struct with the only field [name] gives one error, for [bogus]. *)
Lemma validate_struct_is_closed_witness :
  let v := rootWalker (value.VMap nameAndBogus) (schema.Inlined (schema.AStruct structOfName)) in
  typed.validate v =
  (concat (List.map
             (fun f : schema.StructField =>
                match value.Get nameAndBogus (schema.Name f) with
                | Some child =>
                    typed.validate (childWalker v (fieldpath.FieldName (schema.Name f))
                                      (value.Val child) (schema.Type_ f))
                | None => []
                end) (schema.Fields structOfName))
   ++ List.map (fun f => typed.error v ("field " ++ value.Name f ++ " is not mentioned in the schema"))
               (filter (fun f => value.Name f ∉ schema.Name <$> schema.Fields structOfName)
                       nameAndBogus))%list.
Proof.
  intros v. apply (validate_struct_is_closed v structOfName nameAndBogus); reflexivity.
Defined.

Example closed_struct_one_error :
  typed.validate (rootWalker (value.VMap nameAndBogus)
                    (schema.Inlined (schema.AStruct structOfName)))
  = [typed.mkValidationError [] "field bogus is not mentioned in the schema"].
Proof. vm_compute. reflexivity. Qed.

Lemma validate_scalar_kind_witness :
  let v := rootWalker (value.VBoolean true) (schema.Inlined (schema.AScalar schema.String)) in
  (typed.validate v = [] <-> scalarAccepts schema.String (typed.value v) = true) /\
  (scalarAccepts schema.String (typed.value v) = false ->
   exists message, typed.validate v = [typed.mkValidationError (typed.path v) message]).
Proof.
  intros v. apply (validate_scalar_kind v schema.String). reflexivity.
Defined.

Lemma validate_list_valid_iff_witness :
  let v := rootWalker (value.VList aba) (schema.Inlined (schema.AList setOfStrings)) in
  typed.validate v = [] <->
  (forall (i : nat) child, aba !! i = Some child ->
     exists pe,
       typed.listItemToPathElement setOfStrings (Z.of_nat i) child = (pe, None) /\
       typed.validate (childWalker v pe child (schema.ElementType setOfStrings)) = []) /\
  (forall (i j : nat) ci cj, i <> j -> aba !! i = Some ci -> aba !! j = Some cj ->
     fieldpath.PathElement_String (fst (typed.listItemToPathElement setOfStrings (Z.of_nat i) ci))
     <> fieldpath.PathElement_String (fst (typed.listItemToPathElement setOfStrings (Z.of_nat j) cj))).
Proof.
  intros v. apply (validate_list_valid_iff v setOfStrings aba); reflexivity.
Defined.

Lemma validate_atomic_list_valid_iff_witness :
  let v := rootWalker (value.VList [value.VInt 1; value.VInt 1])
             (schema.Inlined (schema.AList atomicNumbers)) in
  typed.validate v = [] <->
  forall (i : nat) child, [value.VInt 1; value.VInt 1] !! i = Some child ->
    typed.validate (childWalker v (fieldpath.Index (Z.of_nat i)) child
                      (schema.ElementType atomicNumbers)) = [].
Proof.
  intros v.
  apply (validate_atomic_list_valid_iff v atomicNumbers [value.VInt 1; value.VInt 1]);
    reflexivity.
Defined.

Lemma removal_filters_scalar_set_witness :
  typed_remove.removeItemsWithSchema (value.VList aba) pathOfValueA emptySchema
    (schema.Inlined (schema.AList setOfStrings))
  = listOrNull (List.filter
                  (fun x => negb (fieldpath.Has pathOfValueA (fieldpath.MakePath (fieldpath.Value x))))
                  aba).
Proof.
  apply (removal_filters_scalar_set aba pathOfValueA emptySchema setOfStrings).
  - reflexivity.
  - reflexivity.
  - repeat constructor.
  - discriminate.
Defined.

Lemma reverse_table_inverts_table_witness :
  (forall x j,
     (fieldpath_strings.reverseOf ["a"; "b"; "c"]) !! x = Some j ->
     0 <= j /\ ["a"; "b"; "c"] !! Z.to_nat j = Some x) /\
  (forall x, x ∈ ["a"; "b"; "c"] <->
             is_Some (fieldpath_strings.reverseOf ["a"; "b"; "c"] !! x)).
Proof.
  apply (reverse_table_inverts_table exampleV0 exampleV1 exampleTrimSpace exampleSplit 1
           ["a"; "b"; "c"] (fieldpath_strings.reverseOf ["a"; "b"; "c"])).
  - vm_compute. reflexivity.
  - reflexivity.
Defined.

Lemma GuessBest_key_is_sound_witness :
  [field "name" (value.VString "x")] <> [] /\
  exists m, value.VMap [field "name" (value.VString "x")] = value.VMap m /\
    Forall (fun f => value.Get m (value.Name f) = Some f /\ isScalar (value.Val f) = true /\
                     value.Name f ∈ schema.AssociativeListCandidateFieldNames)
           [field "name" (value.VString "x")].
Proof.
  apply (GuessBest_key_is_sound 0 (value.VMap [field "name" (value.VString "x")])
           [field "name" (value.VString "x")]).
  reflexivity.
Defined.

Lemma keyed_derivation_agrees_with_guess_witness :
  typed.listItemToPathElement byName 3 (value.VMap [field "name" (value.VString "x")])
  = (schema.GuessBestListPathElement 5 (value.VMap [field "name" (value.VString "x")]), None).
Proof.
  apply (keyed_derivation_agrees_with_guess byName 3 5 [field "name" (value.VString "x")]).
  - reflexivity.
  - reflexivity.
  - discriminate.
Defined.

Lemma validate_unknown_type_witness :
  typed.validate (rootWalker (value.VInt 1) (schema.NamedType "missing")) =
  [typed.mkValidationError [] ("no type found matching: " ++ "missing")].
Proof.
  apply (validate_unknown_type (rootWalker (value.VInt 1) (schema.NamedType "missing")) "missing").
  - reflexivity.
  - apply not_elem_of_nil.
Defined.

(** Null against a keyed list. *)
Lemma validate_null_and_empty_witness :
  typed.validate (rootWalker value.VNull (schema.Inlined (schema.AList listById))) = [].
Proof.
  apply (validate_null_and_empty
           (rootWalker value.VNull (schema.Inlined (schema.AList listById)))
           (schema.AList listById)).
  reflexivity.
Defined.

(** The set [[a, null]]: the second element is reported. *)
Lemma validate_reports_underivable_element_witness :
  exists before after,
    typed.validate (rootWalker (value.VList [value.VString "a"; value.VNull])
                      (schema.Inlined (schema.AList setOfStrings))) =
    (before
     ++ typed.mkValidationError []
          ("element " ++ fmt_int (Z.of_nat 1) ++ ": " ++
           "associative list without keys has an element that's an explicit null")
     :: after)%list.
Proof.
  apply (validate_reports_underivable_element
           (rootWalker (value.VList [value.VString "a"; value.VNull])
              (schema.Inlined (schema.AList setOfStrings)))
           setOfStrings [value.VString "a"; value.VNull] 1 value.VNull (fieldpath.Key [])).
  - reflexivity.
  - reflexivity.
  - reflexivity.
  - reflexivity.
Defined.

End further_examples.
